(** * glkernel: the tileable Poisson-disk sampler of [sample.hpp]

    A shallow embedding of [glkernel::sample::poisson_square] and of its
    occupancy grid [poisson_square_map], followed by the properties of the
    sampler that are stated in the specification.

    Modelling conventions.
    - The floating type [T] is modelled by the exact rationals [Q]: rounding
      is not modelled.  [cos a] and [sin a] of a drawn angle are delivered by
      the random source as a pair of rationals.  The code can round a
      coordinate that the rationals keep strictly below 1 to exactly 1
      ([probe.x += 1.0] on a tiny negative coordinate); the statements about
      the position of the accepted points therefore use the closed square.
    - [size_t] values that index the kernel are [nat]; [int] cell coordinates
      and offsets are unbounded [Z].  The two agree while the offsets stay
      below [int_max], that is for a grid side of at most 46340; statements
      that promise an access in bounds or a normal return carry a bound on
      the side or on [min_dist].
    - The selected probe reaches the kernel unchanged, as it does for
      [T = float]; the narrowing of a [double] probe through
      [glm::vec2 nearest_probe] is not modelled.
    - [std::vector::operator[]] outside the vector, a failing [assert], and
      the other undefined behaviours the code can reach are explicit
      outcomes of the model.
    - The random device is an oracle indexed by the iteration and the probe
      number; the [omp parallel for] is given its sequential meaning.
    - The overload [poisson_square(kernel, num_probes)] only derives
      [min_dist] from the kernel size and calls the function modelled
      here. *)

From Stdlib Require Import ZArith QArith Qround Qabs Qminmax List Bool Lia Lqa.
Import ListNotations.

(* ------------------------------------------------------------------ *)
(** ** Outcomes of fallible code *)

Inductive outcome (A : Type) : Type :=
| Ok (a : A)
| AssertionFailed   (* an [assert] of the source does not hold *)
| OutOfBounds       (* [operator[]] outside the vector *)
| Undefined         (* any other undefined behaviour of the source *)
| OutOfFuel.        (* the loop model ran out of fuel *)

Arguments Ok {A} a.
Arguments AssertionFailed {A}.
Arguments OutOfBounds {A}.
Arguments Undefined {A}.
Arguments OutOfFuel {A}.

Definition bind {A B : Type} (c : outcome A) (f : A -> outcome B) : outcome B :=
  match c with
  | Ok a => f a
  | AssertionFailed => AssertionFailed
  | OutOfBounds => OutOfBounds
  | Undefined => Undefined
  | OutOfFuel => OutOfFuel
  end.

Notation "x <- c ;; f" := (bind c (fun x => f))
  (at level 61, c at next level, right associativity).

(* ------------------------------------------------------------------ *)
(** ** Scalars, vectors of two components, containers *)

Definition Qltb (a b : Q) : bool := negb (Qle_bool b a).

(** [static_cast<int>(q)]: truncation toward zero. *)
Definition trunc (q : Q) : Z := Z.quot (Qnum q) (Zpos (Qden q)).

(** [std::numeric_limits<int>::max()]. *)
Definition int_max : Z := 2147483647%Z.

Record vec2 : Type := mk_vec2 { vx : Q; vy : Q }.

Definition vsub (a b : vec2) : vec2 := mk_vec2 (vx a - vx b) (vy a - vy b).
Definition vabs (a : vec2) : vec2 := mk_vec2 (Qabs (vx a)) (Qabs (vy a)).
Definition dot (a b : vec2) : Q := vx a * vx b + vy a * vy b.

(** Read of a vector at an [int] offset. *)
Definition vec_get {A : Type} (v : list A) (i : Z) : option A :=
  if (i <? 0)%Z then None else nth_error v (Z.to_nat i).

Fixpoint list_set {A : Type} (v : list A) (i : nat) (a : A) : list A :=
  match v, i with
  | [], _ => []
  | _ :: t, O => a :: t
  | h :: t, S n => h :: list_set t n a
  end.

(** Write of a vector slot. *)
Definition vec_put {A : Type} (v : list A) (i : nat) (a : A) : outcome (list A) :=
  if (i <? length v)%nat then Ok (list_set v i a) else OutOfBounds.

(* ------------------------------------------------------------------ *)
(** ** The occupancy grid: [poisson_square_map] *)

Record poisson_square_map : Type := mk_map {
  m_side : Z;
  m_dist2 : Q;
  m_mask : list (option nat)     (* [None] is [m_none] *)
}.

(** [static_cast<size_t>(std::ceil(sqrt(2.0) / min_dist))].  For
    [min_dist = p/q > 0] the least [n] with [n >= sqrt 2 * q / p] is the
    least [n] with [n * p >= ceil (sqrt (2 q^2))].  For a negative
    [min_dist] the quotient is negative: above [-1] it rounds up to zero,
    otherwise (and for [min_dist = 0]) the conversion is undefined. *)
Definition ceil_sqrt2_over (min_dist : Q) : option Z :=
  if Qltb 0 min_dist then
    Some ((Z.sqrt_up (2 * Zpos (Qden min_dist) ^ 2) + Qnum min_dist - 1) / Qnum min_dist)%Z
  else if Qltb min_dist 0 && Qltb 2 (min_dist * min_dist) then Some 0%Z
  else None.

Definition new_map (min_dist : Q) : outcome poisson_square_map :=
  match ceil_sqrt2_over min_dist with
  | None => Undefined
  | Some s => Ok (mk_map s (min_dist * min_dist) (repeat None (Z.to_nat (s * s))))
  end.

Definition cell_of (s : Z) (c : Q) : Z := trunc (c * inject_Z s).

Definition mask_offset (s : Z) (point : vec2) : Z :=
  (cell_of s (vy point) * s + cell_of s (vx point))%Z.

Definition mask (m : poisson_square_map) (point : vec2) (k : nat)
  : outcome poisson_square_map :=
  let s := m_side m in
  let o := mask_offset s point in
  match vec_get (m_mask m) o with
  | None => OutOfBounds
  | Some (Some _) => AssertionFailed
  | Some None => Ok (mk_map s (m_dist2 m) (list_set (m_mask m) (Z.to_nat o) (Some k)))
  end.

Definition tiled (s i : Z) : Z := if (i <? 0)%Z then (i + s)%Z else Z.rem i s.

Definition untile (s i : Z) (c : Q) : Q :=
  if (i <? 0)%Z then c - 1 else if (i >=? s)%Z then c + 1 else c.

Definition is_corner (x y j i : Z) : bool :=
  ((j =? y - 2)%Z || (j =? y + 2)%Z) && ((i =? x - 2)%Z || (i =? x + 2)%Z).

(** The body of the two nested loops of [masked] at cell [(j, i)]:
    [Ok true] is the early [return true]. *)
Definition masked_cell (m : poisson_square_map) (kernel : list vec2) (probe : vec2)
           (x y : Z) (ji : Z * Z) : outcome bool :=
  let s := m_side m in
  let '(j, i) := ji in
  if is_corner x y j i then Ok false
  else
    match vec_get (m_mask m) (tiled s j * s + tiled s i)%Z with
    | None => OutOfBounds
    | Some None => Ok false
    | Some (Some o) =>
        match nth_error kernel o with
        | None => OutOfBounds
        | Some p =>
            let masking_probe := mk_vec2 (untile s i (vx p)) (untile s j (vy p)) in
            let delta := vsub masking_probe probe in
            Ok (Qltb (dot delta delta) (m_dist2 m))
        end
    end.

Fixpoint masked_scan (m : poisson_square_map) (kernel : list vec2) (probe : vec2)
         (x y : Z) (cells : list (Z * Z)) : outcome bool :=
  match cells with
  | [] => Ok false
  | c :: rest =>
      hit <- masked_cell m kernel probe x y c ;;
      if hit then Ok true else masked_scan m kernel probe x y rest
  end.

Definition span (c : Z) : list Z := [c - 2; c - 1; c; c + 1; c + 2]%Z.

(** The cells in the order of the loops: [j] outside, [i] inside. *)
Definition window (x y : Z) : list (Z * Z) :=
  flat_map (fun j => map (fun i => (j, i)) (span x)) (span y).

Definition masked (m : poisson_square_map) (probe : vec2) (kernel : list vec2)
  : outcome bool :=
  let s := m_side m in
  let x := cell_of s (vx probe) in
  let y := cell_of s (vy probe) in
  masked_scan m kernel probe x y (window x y).

(* ------------------------------------------------------------------ *)
(** ** The sampler: [poisson_square] *)

(** The random source: [pick it] is the integer drawn in iteration [it],
    [radius it i] and [angle it i] the radius and the pair
    [(cos a, sin a)] of the angle drawn for probe [i] of iteration [it]. *)
Record rng : Type := mk_rng {
  pick : nat -> nat;
  radius : nat -> nat -> Q;
  angle : nat -> nat -> Q * Q
}.

(** [if (c < 0.0) c += 1.0; else if (c >= 1.0) c -= 1.0;] *)
Definition wrap (c : Q) : Q :=
  if Qltb c 0 then c + 1 else if Qle_bool 1 c then c - 1 else c.

Definition make_probe (active : vec2) (r : Q) (a : Q * Q) : vec2 :=
  mk_vec2 (wrap (vx active + r * fst a)) (wrap (vy active + r * snd a)).

(** The value stored with a probe that is not masked. *)
Definition ranking (active probe : vec2) : Q :=
  let delta := vabs (vsub active probe) in dot delta delta.

(** The body of the probe loop. *)
Definition eval_probe (m : poisson_square_map) (kernel : list vec2)
           (active : vec2) (r : Q) (a : Q * Q) : outcome (vec2 * Q) :=
  let probe := make_probe active r a in
  hit <- masked m probe kernel ;;
  Ok (probe, if hit then - (1) else ranking active probe).

Fixpoint gen_probes (m : poisson_square_map) (kernel : list vec2) (active : vec2)
         (g : rng) (it i n : nat) : outcome (list (vec2 * Q)) :=
  match n with
  | O => Ok []
  | S n' =>
      p <- eval_probe m kernel active (radius g it i) (angle g it i) ;;
      ps <- gen_probes m kernel active g it (S i) n' ;;
      Ok (p :: ps)
  end.

(** The selection loop; [nearest = None] is [nearest_found == false]. *)
Fixpoint select_nearest (probes : list (vec2 * Q)) (nearest_dist : Q)
         (nearest : option vec2) : Q * option vec2 :=
  match probes with
  | [] => (nearest_dist, nearest)
  | (probe, new_dist) :: rest =>
      if Qltb new_dist 0 || Qltb nearest_dist new_dist
      then select_nearest rest nearest_dist nearest
      else select_nearest rest new_dist (Some probe)
  end.

Record state : Type := mk_state {
  kernel : list vec2;
  k : nat;
  actives : list nat;
  occupancy : poisson_square_map
}.

Fixpoint erase {A : Type} (l : list A) (i : nat) : list A :=
  match l, i with
  | [], _ => []
  | _ :: t, O => t
  | h :: t, S n => h :: erase t n
  end.

Definition pick_index (g : rng) (it : nat) (st : state) : nat :=
  (pick g it mod length (actives st))%nat.

(** The probes of one iteration, from the picked active point. *)
Definition iteration_probes (num_probes : nat) (g : rng) (it : nat) (st : state)
  : outcome (list (vec2 * Q)) :=
  match nth_error (actives st) (pick_index g it st) with
  | None => Undefined
  | Some idx =>
      match nth_error (kernel st) idx with
      | None => OutOfBounds
      | Some active => gen_probes (occupancy st) (kernel st) active g it 0 num_probes
      end
  end.

(** One iteration of the main loop. *)
Definition step (min_dist : Q) (num_probes : nat) (g : rng) (it : nat) (st : state)
  : outcome state :=
  probes <- iteration_probes num_probes g it st ;;
  let nearest := snd (select_nearest probes (4 * min_dist * min_dist) None) in
  let nearest_found := match nearest with Some _ => true | None => false end in
  if negb nearest_found && ((0 <? length (actives st))%nat || (1 <? k st)%nat) then
    Ok (mk_state (kernel st) (k st) (erase (actives st) (pick_index g it st))
                 (occupancy st))
  else
    match nearest with
    | None => Undefined      (* [nearest_probe] would be read uninitialised *)
    | Some nearest_probe =>
        let k' := S (k st) in
        kernel' <- vec_put (kernel st) k' nearest_probe ;;
        occupancy' <- mask (occupancy st) nearest_probe k' ;;
        Ok (mk_state kernel' k' (actives st ++ [k']) occupancy')
    end.

(** [!actives.empty() && k < kernel.size() - 1]; the subtraction is on
    [size_t] and wraps for an empty kernel. *)
Definition loop_cond (st : state) : bool :=
  negb (match actives st with [] => true | _ => false end)
  && match length (kernel st) with
     | O => true
     | S n => (k st <? n)%nat
     end.

(** The main loop; the result carries the number of iterations made. *)
Fixpoint main_loop (fuel : nat) (min_dist : Q) (num_probes : nat) (g : rng)
         (it : nat) (st : state) : outcome (nat * state) :=
  if loop_cond st then
    match fuel with
    | O => OutOfFuel
    | S fuel' =>
        st' <- step min_dist num_probes g it st ;;
        main_loop fuel' min_dist num_probes g (S it) st'
    end
  else Ok (it, st).

Definition seed : vec2 := mk_vec2 (1 # 2) (1 # 2).

(** Everything before the main loop. *)
Definition init (buffer : list vec2) (min_dist : Q) : outcome state :=
  occupancy0 <- new_map min_dist ;;
  kernel0 <- vec_put buffer 0 seed ;;
  occupancy1 <- match nth_error kernel0 0 with
                | None => OutOfBounds
                | Some p => mask occupancy0 p 0
                end ;;
  Ok (mk_state kernel0 0 [0%nat] occupancy1).

Definition run (fuel : nat) (g : rng) (buffer : list vec2) (min_dist : Q)
           (num_probes : nat) : outcome (nat * state) :=
  st0 <- init buffer min_dist ;;
  main_loop fuel min_dist num_probes g 0 st0.

(** [poisson_square(kernel, min_dist, num_probes)]: the returned count and
    the kernel as the call leaves it. *)
Definition poisson_square (fuel : nat) (g : rng) (buffer : list vec2) (min_dist : Q)
           (num_probes : nat) : outcome (nat * list vec2) :=
  r <- run fuel g buffer min_dist num_probes ;;
  Ok (S (k (snd r)), kernel (snd r)).

(** The toroidal squared distance of the specification. *)
Definition shifts : list (Q * Q) :=
  flat_map (fun tx => map (fun ty => (tx, ty)) [- (1); 0; 1]) [- (1); 0; 1].

Definition dist2_shift (p q : vec2) (t : Q * Q) : Q :=
  let d := mk_vec2 (vx p - vx q + fst t) (vy p - vy q + snd t) in dot d d.

Definition torus_dist2 (p q : vec2) : Q :=
  fold_right (fun t acc => Qmin (dist2_shift p q t) acc)
             (dist2_shift p q (0, 0)) shifts.

(* ------------------------------------------------------------------ *)
(** ** Predicates used in the statements *)

(** The half-open unit square. *)
Definition in_unit (p : vec2) : Prop := (0 <= vx p < 1) /\ (0 <= vy p < 1).


(** The pair delivered for an angle is a point of the unit circle. *)
Definition unit_dir (a : Q * Q) : Prop := fst a * fst a + snd a * snd a == 1.

(** The draws of the random source are in the ranges of their
    distributions: radii in [[min_dist, 2 min_dist)]. *)
Definition rng_ok (min_dist : Q) (g : rng) : Prop :=
  forall it i, min_dist <= radius g it i < 2 * min_dist /\ unit_dir (angle g it i).

(** An entry of the probe array that the selection loop passes over. *)
Definition rejected (bound : Q) (e : vec2 * Q) : Prop :=
  snd e < 0 \/ bound < snd e.

(** The outcome is a result or an error of the source, not a lack of fuel. *)
Definition fuel_free {A : Type} (c : outcome A) : Prop := c <> OutOfFuel.

(** The variant of the loop: twice the number of free slots plus the
    length of the active list. *)
Definition variant (st : state) : nat :=
  2 * (length (kernel st) - 1 - k st) + length (actives st).

(** The grid describes the kernel: it has the side and the size that the
    constructor gave it, and a cell that holds an index holds the index of
    an accepted point lying in that cell. *)
Record grid_ok (min_dist : Q) (st : state) : Prop := mk_grid_ok {
  g_side : ceil_sqrt2_over min_dist = Some (m_side (occupancy st));
  g_dist : m_dist2 (occupancy st) = min_dist * min_dist;
  g_len : length (m_mask (occupancy st))
          = Z.to_nat (m_side (occupancy st) * m_side (occupancy st));
  g_cells : forall off o,
      vec_get (m_mask (occupancy st)) off = Some (Some o) ->
      (o <= k st)%nat /\
      exists p, nth_error (kernel st) o = Some p /\
                mask_offset (m_side (occupancy st)) p = off
}.

(** The invariant of the main loop, for the exact coordinates of the
    model: the accepted points stay in the half-open square. *)
Record inv (min_dist : Q) (st : state) : Prop := mk_inv {
  i_k : (k st < length (kernel st))%nat;
  i_act : forall idx, In idx (actives st) -> (idx <= k st)%nat;
  i_nodup : NoDup (actives st);
  i_unit : forall i p, (i <= k st)%nat -> nth_error (kernel st) i = Some p -> in_unit p;
  i_grid : grid_ok min_dist st
}.

(** The cells of the window that [masked] does not skip. *)
Definition examined (x y : Z) : list (Z * Z) :=
  filter (fun c => negb (is_corner x y (fst c) (snd c))) (window x y).




(** The states of the main loop: the state after the initialisation, and
    the state after each iteration made while the loop condition holds. *)
Inductive reachable (min_dist : Q) (num_probes : nat) (g : rng) (buffer : list vec2)
  : nat -> state -> Prop :=
| reach_init (st0 : state) :
    init buffer min_dist = Ok st0 ->
    reachable min_dist num_probes g buffer 0 st0
| reach_step (it : nat) (st st' : state) :
    reachable min_dist num_probes g buffer it st ->
    loop_cond st = true ->
    step min_dist num_probes g it st = Ok st' ->
    reachable min_dist num_probes g buffer (S it) st'.


(* ------------------------------------------------------------------ *)
(** ** Concrete buffers, random sources and states *)

Definition z0 : vec2 := mk_vec2 0 0.

Definition g_tie : rng :=
  mk_rng (fun _ => O) (fun _ _ => 1 # 5)
         (fun _ i => match i with O => (1, 0) | _ => (- (1), 0) end).

Definition g_far : rng :=
  mk_rng (fun _ => O) (fun _ _ => 1) (fun _ _ => (1, 0)).

Definition tie_probes : list (vec2 * Q) :=
  [ (mk_vec2 (7 # 10) (1 # 2), 1 # 25); (mk_vec2 (3 # 10) (1 # 2), 1 # 25) ].

Definition st_lone : state :=
  mk_state [seed; z0] 0 [0%nat]
           (mk_map 2 ((9 # 10) * (9 # 10)) [None; None; None; Some 0%nat]).

Definition st_first : state :=
  mk_state [seed; z0] 0 [0%nat]
           (mk_map 12 ((3 # 25) * (3 # 25))
                   (list_set (repeat None 144) 78 (Some 0%nat))).


Definition g_corner : rng :=
  mk_rng (fun it => it)
         (fun it _ => match it with O => 49 # 250 | _ => 7 # 50 end)
         (fun it _ => match it with O => (- (1), 0) | _ => (4 # 5, - (3 # 5)) end).

Definition p_corner : vec2 := mk_vec2 (52000 # 125000) (52000 # 125000).

Definition g_half : rng :=
  mk_rng (fun _ => O) (fun _ _ => 1 # 2) (fun _ _ => (1, 0)).

Definition p_half : vec2 := mk_vec2 (0 # 4) (2 # 4).

Definition st_half : state :=
  mk_state [seed; p_half] 1 [0%nat; 1%nat]
           (mk_map 3 ((1 # 2) * (1 # 2))
                   [None; None; None; Some 1%nat; Some 0%nat; None; None; None; None]).

Definition st_tie1 : state :=
  mk_state [seed; mk_vec2 (3 # 10) (5 # 10)] 1 [0%nat; 1%nat]
           (mk_map 12 ((3 # 25) * (3 # 25))
                   (list_set (list_set (repeat None 144) 78 (Some 0%nat))
                             75 (Some 1%nat))).

(* ------------------------------------------------------------------ *)
(** ** Basic facts about the embedding *)

Lemma Qltb_lt (a b : Q) : Qltb a b = true <-> a < b.
Proof.
  unfold Qltb. rewrite negb_true_iff. split; intro H.
  - apply Qnot_le_lt. intro L. apply Qle_bool_iff in L. congruence.
  - destruct (Qle_bool b a) eqn:E; [|reflexivity].
    apply Qle_bool_iff in E. exfalso. exact (Qlt_not_le _ _ H E).
Qed.

Lemma Qltb_ge (a b : Q) : Qltb a b = false <-> b <= a.
Proof.
  unfold Qltb. rewrite negb_false_iff. apply Qle_bool_iff.
Qed.

Lemma bind_ok {A B : Type} (c : outcome A) (f : A -> outcome B) (b : B) :
  bind c f = Ok b -> exists a, c = Ok a /\ f a = Ok b.
Proof.
  destruct c; simpl; try discriminate. intro H. exists a. split; [reflexivity|exact H].
Qed.

Ltac bind_inv H :=
  let a := fresh "a" in
  let E := fresh "E" in
  apply bind_ok in H; destruct H as [a [E H]].

Lemma length_list_set {A : Type} (v : list A) (i : nat) (a : A) :
  length (list_set v i a) = length v.
Proof.
  revert i. induction v as [|h t IH]; intros [|i]; simpl; auto.
Qed.

Lemma nth_error_list_set_eq {A : Type} (v : list A) (i : nat) (a : A) :
  (i < length v)%nat -> nth_error (list_set v i a) i = Some a.
Proof.
  revert i. induction v as [|h t IH]; intros [|i] L; simpl in *; try lia; auto.
  apply IH. lia.
Qed.

Lemma nth_error_list_set_neq {A : Type} (v : list A) (i j : nat) (a : A) :
  i <> j -> nth_error (list_set v i a) j = nth_error v j.
Proof.
  revert i j. induction v as [|h t IH]; intros [|i] [|j] N; simpl; auto; try congruence.
Qed.

Lemma length_erase {A : Type} (l : list A) (i : nat) :
  (i < length l)%nat -> S (length (erase l i)) = length l.
Proof.
  revert i. induction l as [|h t IH]; intros [|i] L; simpl in *; try lia.
  rewrite IH; lia.
Qed.

Lemma In_erase {A : Type} (l : list A) (i : nat) (a : A) :
  In a (erase l i) -> In a l.
Proof.
  revert i. induction l as [|h t IH]; intros [|i]; simpl; auto.
  intros [H|H]; eauto.
Qed.

(** The draws of the concrete random sources are in range. *)
Lemma g_tie_ok : rng_ok (3 # 25) g_tie.
Proof.
  intros it i. split.
  - simpl. lra.
  - unfold unit_dir. simpl. destruct i; reflexivity.
Qed.


Lemma g_corner_ok : rng_ok (3 # 25) g_corner.
Proof.
  intros it i. destruct it; split; simpl; try lra; reflexivity.
Qed.

Lemma g_far_ok : rng_ok (9 # 10) g_far.
Proof.
  intros it i. split; [simpl; lra|reflexivity].
Qed.

(* ------------------------------------------------------------------ *)
(** ** Selection of the nearest probe *)

Lemma select_nearest_spec (probes : list (vec2 * Q)) :
  forall nd0 n0 nd n,
    select_nearest probes nd0 n0 = (nd, n) ->
    nd <= nd0 /\
    (forall e, In e probes -> 0 <= snd e -> nd <= snd e) /\
    ((nd = nd0 /\ n = n0 /\ forall e, In e probes -> rejected nd0 e)
     \/ exists i p, nth_error probes i = Some (p, nd) /\ n = Some p /\ 0 <= nd /\
          forall j e, (i < j)%nat -> nth_error probes j = Some e -> rejected nd e).
Proof.
  induction probes as [|[probe new_dist] rest IH]; intros nd0 n0 nd n H; simpl in H.
  - inversion H; subst. split; [apply Qle_refl|]. split; [intros e []|].
    left. repeat split. intros e [].
  - destruct (Qltb new_dist 0 || Qltb nd0 new_dist) eqn:T.
    + destruct (IH _ _ _ _ H) as [L [M C]].
      assert (R : rejected nd0 (probe, new_dist)).
      { apply orb_true_iff in T. destruct T as [T|T]; apply Qltb_lt in T;
          [left|right]; exact T. }
      split; [exact L|]. split.
      * intros e [<-|I] P; [|auto]. simpl in *.
        destruct R as [R|R]; simpl in R; [exfalso; lra | lra].
      * destruct C as [[-> [-> C]]|[i [p [Hi [Hn [P C]]]]]].
        -- left. repeat split. intros e [<-|I]; auto.
        -- right. exists (S i), p. repeat split; auto.
           intros [|j] e Lj Hj; [lia|]. apply (C j e); [lia|exact Hj].
    + apply orb_false_iff in T. destruct T as [T1 T2].
      apply Qltb_ge in T1. apply Qltb_ge in T2.
      destruct (IH _ _ _ _ H) as [L [M C]].
      split; [lra|]. split.
      * intros e [<-|I] P; [exact L|auto].
      * right. destruct C as [[-> [-> C]]|[i [p [Hi [Hn [P C]]]]]].
        -- exists O, probe. repeat split; auto.
           intros [|j] e Lj Hj; [lia|]. simpl in Hj.
           apply C. eapply nth_error_In; eauto.
        -- exists (S i), p. repeat split; auto.
           intros [|j] e Lj Hj; [lia|]. apply (C j e); [lia|exact Hj].
Qed.

(** C6 (as amended).  The selection loop starts from the bound
    [4 * min_dist * min_dist].  No probe is selected exactly when every
    recorded distance is negative or above the bound.  Otherwise the
    selected probe has the smallest non-negative recorded distance, this
    distance is at most the bound, and among the probes that tie for it the
    selected one is the LAST in generation order: every later probe with a
    non-negative recorded distance is strictly farther. *)
Theorem select_nearest_last_minimum (min_dist : Q) (probes : list (vec2 * Q))
        (nd : Q) (n : option vec2) :
  select_nearest probes (4 * min_dist * min_dist) None = (nd, n) ->
  (n = None <->
   forall e, In e probes -> snd e < 0 \/ 4 * min_dist * min_dist < snd e) /\
  (forall p, n = Some p ->
     exists i, nth_error probes i = Some (p, nd) /\
       0 <= nd <= 4 * min_dist * min_dist /\
       (forall e, In e probes -> 0 <= snd e -> nd <= snd e) /\
       (forall j e, (i < j)%nat -> nth_error probes j = Some e ->
                    0 <= snd e -> nd < snd e)).
Proof.
  intro H. destruct (select_nearest_spec _ _ _ _ _ H) as [L [M C]]. split.
  - split.
    + intro N. destruct C as [[_ [_ C]]|[i [p [_ [Hn _]]]]]; [exact C|congruence].
    + intro R. destruct C as [[_ [C _]]|[i [p [Hi [Hn [P _]]]]]]; [exact C|].
      exfalso. apply nth_error_In in Hi. destruct (R _ Hi) as [R1|R1]; simpl in R1; lra.
  - intros p N. destruct C as [[_ [C _]]|[i [p' [Hi [Hn [P C]]]]]]; [congruence|].
    assert (p' = p) by congruence. subst p'.
    exists i. repeat split; auto.
    intros j e Lj Hj Pe. destruct (C j e Lj Hj) as [R|R]; [lra|exact R].
Qed.

Lemma select_nearest_last_minimum_witness :
  exists i, nth_error tie_probes i = Some (mk_vec2 (3 # 10) (1 # 2), 1 # 25) /\
    0 <= 1 # 25 <= 4 * (3 # 25) * (3 # 25) /\
    (forall e, In e tie_probes -> 0 <= snd e -> 1 # 25 <= snd e) /\
    (forall j e, (i < j)%nat -> nth_error tie_probes j = Some e ->
                 0 <= snd e -> 1 # 25 < snd e).
Proof.
  exact (proj2 (select_nearest_last_minimum (3 # 25) tie_probes _ _ eq_refl)
               (mk_vec2 (3 # 10) (1 # 2)) eq_refl).
Defined.

(** C6, counterexample.  [min_dist = 0.12], two probes per iteration, both
    at radius [0.2], the first at angle [0], the second at angle [pi].  In
    the first iteration both probes are free and tie at the recorded
    distance [0.04]; the loop accepts the second, [(0.3, 0.5)], not the
    first in generation order. *)
Lemma select_nearest_tie_takes_last :
  exists st0 st1 p1 p2 v,
    rng_ok (3 # 25) g_tie /\
    init [z0; z0] (3 # 25) = Ok st0 /\
    iteration_probes 2 g_tie 0 st0 = Ok [(p1, v); (p2, v)] /\
    p1 = mk_vec2 (7 # 10) (5 # 10) /\ p2 = mk_vec2 (3 # 10) (5 # 10) /\
    0 <= v /\
    snd (select_nearest [(p1, v); (p2, v)] (4 * (3 # 25) * (3 # 25)) None) = Some p2 /\
    step (3 # 25) 2 g_tie 0 st0 = Ok st1 /\
    nth_error (kernel st1) 1 = Some p2 /\ p2 <> p1.
Proof.
  do 5 eexists.
  split; [exact g_tie_ok|].
  split; [reflexivity|]. split; [vm_compute; reflexivity|].
  split; [reflexivity|]. split; [reflexivity|].
  split; [vm_compute; discriminate|]. split; [vm_compute; reflexivity|].
  split; [vm_compute; reflexivity|]. split; [reflexivity|]. discriminate.
Qed.

(* ------------------------------------------------------------------ *)
(** ** The grid side and the cell of a coordinate *)

(** [ceil_sqrt2_over d] is the ceiling of [sqrt 2 / d] for a positive [d]:
    it is the integer [s >= 1] with [s - 1 < sqrt 2 / d <= s], written
    with squares. *)
Lemma ceil_sqrt2_over_pos (d : Q) :
  0 < d ->
  exists s, ceil_sqrt2_over d = Some s /\ (1 <= s)%Z /\
    2 <= (inject_Z s * d) * (inject_Z s * d) /\
    (inject_Z (s - 1) * d) * (inject_Z (s - 1) * d) < 2.
Proof.
  intro Hd. unfold ceil_sqrt2_over.
  assert (T : Qltb 0 d = true) by (apply Qltb_lt; exact Hd). rewrite T.
  destruct d as [p q]. unfold Qlt in Hd. simpl in *.
  assert (Hp : (0 < p)%Z) by lia.
  set (a := (2 * Z.pos q ^ 2)%Z).
  assert (Ha : (0 < a)%Z) by (unfold a; nia).
  pose proof (Z.sqrt_up_spec a Ha) as [Hlo Hhi].
  set (u := Z.sqrt_up a) in *.
  assert (Hu : (1 <= u)%Z).
  { destruct (Z_lt_le_dec u 1) as [L|L]; [|exact L]. exfalso.
    assert (u * u <= 0 \/ 0 < u * u)%Z as [X|X] by lia; [lia|].
    assert (u = 0 \/ u < 0)%Z as [->| N] by lia; [lia|].
    pose proof (Z.sqrt_up_nonneg a). fold u in H. lia. }
  set (s := ((u + p - 1) / p)%Z).
  pose proof (Z.div_mod (u + p - 1) p ltac:(lia)) as DM.
  pose proof (Z.mod_pos_bound (u + p - 1) p Hp) as MB.
  fold s in DM.
  assert (S1 : (u <= p * s)%Z) by lia.
  assert (S2 : (p * (s - 1) <= u - 1)%Z) by lia.
  assert (S3 : (1 <= s)%Z) by nia.
  exists s. split; [reflexivity|]. split; [exact S3|].
  replace (Z.pred u) with (u - 1)%Z in Hlo by lia.
  split.
  - unfold Qle, Qmult, inject_Z. cbn [Qnum Qden]. unfold a in *.
    assert ((p * s) * (p * s) >= u * u)%Z by nia.
    rewrite !Pos2Z.inj_mul. rewrite Z.pow_2_r in *. nia.
  - unfold Qlt, Qmult, inject_Z. cbn [Qnum Qden]. unfold a in *.
    assert (0 <= p * (s - 1))%Z by nia.
    assert ((p * (s - 1)) * (p * (s - 1)) <= (u - 1) * (u - 1))%Z by nia.
    rewrite !Pos2Z.inj_mul. rewrite Z.pow_2_r in *. nia.
Qed.

Lemma cell_of_floor (s : Z) (c : Q) :
  (0 <= s)%Z -> 0 <= c ->
  (0 <= cell_of s c)%Z /\
  inject_Z (cell_of s c) <= c * inject_Z s < inject_Z (cell_of s c) + 1.
Proof.
  intros Hs Hc. unfold cell_of, trunc.
  destruct c as [n q]. unfold Qle in Hc. simpl in *.
  rewrite Pos.mul_1_r.
  assert (Hn : (0 <= n)%Z) by lia.
  assert (Hns : (0 <= n * s)%Z) by nia.
  rewrite Z.quot_div_nonneg by lia.
  pose proof (Z.div_mod (n * s) (Z.pos q) ltac:(lia)) as DM.
  pose proof (Z.mod_pos_bound (n * s) (Z.pos q) ltac:(lia)) as MB.
  set (c := (n * s / Z.pos q)%Z) in *.
  assert (0 <= c)%Z by (apply Z.div_pos; lia).
  split; [assumption|].
  unfold Qle, Qlt. simpl. rewrite Pos.mul_1_r. split; nia.
Qed.

Lemma cell_of_range (s : Z) (c : Q) :
  (0 < s)%Z -> 0 <= c < 1 -> (0 <= cell_of s c < s)%Z.
Proof.
  intros Hs [H0 H1].
  destruct (cell_of_floor s c (Z.lt_le_incl _ _ Hs) H0) as [P [L U]].
  split; [exact P|].
  assert (X : inject_Z (cell_of s c) < inject_Z s).
  { assert (0 < inject_Z s) by (change 0 with (inject_Z 0); rewrite <- Zlt_Qlt; exact Hs).
    nra. }
  rewrite <- Zlt_Qlt in X. exact X.
Qed.

Lemma mask_offset_range (s : Z) (p : vec2) :
  (0 < s)%Z -> in_unit p -> (0 <= mask_offset s p < s * s)%Z.
Proof.
  intros Hs [Hx Hy]. unfold mask_offset.
  pose proof (cell_of_range s _ Hs Hx). pose proof (cell_of_range s _ Hs Hy). nia.
Qed.

Lemma vec_get_in_range {A : Type} (v : list A) (i : Z) :
  (0 <= i < Z.of_nat (length v))%Z -> exists a, vec_get v i = Some a.
Proof.
  intros [L U]. unfold vec_get.
  destruct (i <? 0)%Z eqn:E; [apply Z.ltb_lt in E; lia|].
  destruct (nth_error v (Z.to_nat i)) eqn:N; [eauto|].
  apply nth_error_None in N. lia.
Qed.

Lemma vec_get_Some {A : Type} (v : list A) (i : Z) (a : A) :
  vec_get v i = Some a -> (0 <= i)%Z /\ nth_error v (Z.to_nat i) = Some a.
Proof.
  unfold vec_get. destruct (i <? 0)%Z eqn:E; [discriminate|].
  apply Z.ltb_ge in E. auto.
Qed.

Lemma seed_in_unit : in_unit seed.
Proof. unfold in_unit, seed; simpl; lra. Qed.

Lemma mask_cases (m : poisson_square_map) (p : vec2) (k0 : nat) :
  (0 < m_side m)%Z ->
  length (m_mask m) = Z.to_nat (m_side m * m_side m) ->
  in_unit p ->
  let s := m_side m in
  let o := mask_offset s p in
  (exists k1, vec_get (m_mask m) o = Some (Some k1) /\ mask m p k0 = AssertionFailed)
  \/ (vec_get (m_mask m) o = Some None /\
      mask m p k0 = Ok (mk_map s (m_dist2 m) (list_set (m_mask m) (Z.to_nat o) (Some k0)))).
Proof.
  intros Hs Hl Hp s o.
  pose proof (mask_offset_range _ _ Hs Hp) as Ho. fold s o in Ho.
  destruct (vec_get_in_range (m_mask m) o) as [c Hc].
  { rewrite Hl. fold s. lia. }
  unfold mask. fold s o. rewrite Hc. destruct c as [k1|].
  - left. exists k1. auto.
  - right. auto.
Qed.

(** C8 (as amended).  [mask] does not clamp the cell coordinates.  For a
    point of [[0, 1)^2] and a grid of side [0 < S <= 46340] with its [S * S]
    cells, both cell coordinates lie in [[0, S)], the product
    [int(p.y * s) * s] and the offset of the store stay within [int], and
    the offset lies in [[0, S * S)], so the access is in bounds; the store
    fails the assertion when the cell is not [NONE] and otherwise writes [k]
    into that cell.  (From side 46341 on, [S * S] exceeds [int_max].) *)
Theorem mask_in_bounds_inside_unit_square (m : poisson_square_map) (p : vec2) (k0 : nat) :
  (0 < m_side m <= 46340)%Z ->
  length (m_mask m) = Z.to_nat (m_side m * m_side m) ->
  in_unit p ->
  let s := m_side m in
  let o := mask_offset s p in
  (0 <= cell_of s (vx p) < s)%Z /\ (0 <= cell_of s (vy p) < s)%Z /\
  (0 <= cell_of s (vy p) * s <= int_max)%Z /\
  (0 <= o < s * s)%Z /\ (s * s <= int_max)%Z /\
  ((exists k1, vec_get (m_mask m) o = Some (Some k1) /\ mask m p k0 = AssertionFailed)
   \/ (vec_get (m_mask m) o = Some None /\
       mask m p k0 = Ok (mk_map s (m_dist2 m) (list_set (m_mask m) (Z.to_nat o) (Some k0))))).
Proof.
  intros [Hs Hb] Hl Hp s o.
  pose proof (mask_offset_range _ _ Hs Hp) as Ho. fold s o in Ho.
  pose proof (mask_cases m p k0 Hs Hl Hp) as C.
  destruct Hp as [Hx Hy].
  pose proof (cell_of_range s _ Hs Hx) as Cx.
  pose proof (cell_of_range s _ Hs Hy) as Cy.
  assert (Sq : (s * s <= int_max)%Z) by (unfold int_max; fold s in Hb; nia).
  split; [exact Cx|].
  split; [exact Cy|].
  split; [nia|].
  split; [exact Ho|].
  split; [exact Sq|exact C].
Qed.

Lemma mask_in_bounds_inside_unit_square_witness :
  let m := mk_map 2 (81 # 100) [None; None; None; None] in
  (0 <= mask_offset 2 seed < 2 * 2)%Z /\ (2 * 2 <= int_max)%Z /\
  mask m seed 0 = Ok (mk_map 2 (81 # 100) [None; None; None; Some 0%nat]).
Proof.
  intro m.
  destruct (mask_in_bounds_inside_unit_square m seed 0%nat)
    as [_ [_ [_ [Ho [Sq [[k1 [G _]]|[_ W]]]]]]].
  - simpl; lia.
  - reflexivity.
  - exact seed_in_unit.
  - discriminate G.
  - split; [exact Ho|]. split; [exact Sq|exact W].
Defined.

(** C8, counterexample.  For the point [(1.1, 0.5)] and the grid of
    [min_dist = 0.9] (side 2, four cells) the unclamped offset is
    [1 * 2 + 2 = 4]: the store is outside the mask array. *)
Lemma mask_outside_unit_square_out_of_bounds :
  new_map (9 # 10) = Ok (mk_map 2 (81 # 100) [None; None; None; None]) /\
  cell_of 2 (11 # 10) = 2%Z /\
  mask_offset 2 (mk_vec2 (11 # 10) (1 # 2)) = 4%Z /\
  mask (mk_map 2 (81 # 100) [None; None; None; None]) (mk_vec2 (11 # 10) (1 # 2)) 1
    = OutOfBounds.
Proof.
  repeat split; reflexivity.
Qed.

(* ------------------------------------------------------------------ *)
(** ** Initialisation and the iterations that accept nothing *)

Lemma vec_get_repeat_None (n : nat) (o : Z) (c : option nat) :
  vec_get (repeat (@None nat) n) o = Some c -> c = None.
Proof.
  intro H. apply vec_get_Some in H. destruct H as [_ H].
  apply nth_error_In in H. apply repeat_spec in H. exact H.
Qed.

Lemma init_ok (buffer : list vec2) (min_dist : Q) :
  buffer <> [] -> 0 < min_dist ->
  exists s, ceil_sqrt2_over min_dist = Some s /\
    init buffer min_dist =
    Ok (mk_state (seed :: tl buffer) 0 [0%nat]
          (mk_map s (min_dist * min_dist)
             (list_set (repeat None (Z.to_nat (s * s)))
                       (Z.to_nat (mask_offset s seed)) (Some 0%nat)))).
Proof.
  intros Hb Hd.
  destruct (ceil_sqrt2_over_pos _ Hd) as [s [Hs [H1 _]]].
  exists s. split; [exact Hs|].
  unfold init, new_map. rewrite Hs. simpl.
  destruct buffer as [|h t]; [congruence|]. simpl.
  set (m := mk_map s (min_dist * min_dist) (repeat None (Z.to_nat (s * s)))).
  destruct (mask_cases m seed 0%nat) as [[k1 [G _]]|[_ W]].
  - simpl. lia.
  - simpl. apply repeat_length.
  - exact seed_in_unit.
  - apply vec_get_repeat_None in G. discriminate.
  - rewrite W. reflexivity.
Qed.

Lemma loop_cond_actives (st : state) :
  loop_cond st = true -> (0 < length (actives st))%nat.
Proof.
  unfold loop_cond. destruct (actives st); simpl; [discriminate|lia].
Qed.

(** What [step] does when the selection finds no probe. *)
Lemma step_none (min_dist : Q) (num_probes : nat) (g : rng) (it : nat) (st : state)
      (probes : list (vec2 * Q)) :
  (0 < length (actives st))%nat ->
  iteration_probes num_probes g it st = Ok probes ->
  snd (select_nearest probes (4 * min_dist * min_dist) None) = None ->
  step min_dist num_probes g it st
  = Ok (mk_state (kernel st) (k st) (erase (actives st) (pick_index g it st))
                 (occupancy st)).
Proof.
  intros Ha Hp Hn. unfold step. rewrite Hp. simpl. rewrite Hn. simpl.
  apply Nat.ltb_lt in Ha. rewrite Ha. reflexivity.
Qed.

Lemma pick_index_lt (g : rng) (it : nat) (st : state) :
  (0 < length (actives st))%nat -> (pick_index g it st < length (actives st))%nat.
Proof.
  intro H. unfold pick_index. apply Nat.mod_upper_bound. lia.
Qed.

(** C2 (as amended).  Inside the main loop the guard
    [actives.size() > 0 || k > 1] is always true: whenever no probe of the
    iteration is accepted the picked index is erased from the active list,
    whatever the size of the list and the value of [k]; the kernel, [k] and
    the grid are left as they are. *)
Theorem exhaustion_always_erases (min_dist : Q) (num_probes : nat) (g : rng)
        (it : nat) (st : state) (probes : list (vec2 * Q)) :
  loop_cond st = true ->
  iteration_probes num_probes g it st = Ok probes ->
  snd (select_nearest probes (4 * min_dist * min_dist) None) = None ->
  step min_dist num_probes g it st
  = Ok (mk_state (kernel st) (k st) (erase (actives st) (pick_index g it st))
                 (occupancy st))
  /\ S (length (erase (actives st) (pick_index g it st))) = length (actives st).
Proof.
  intros Hc Hp Hn. pose proof (loop_cond_actives st Hc) as Ha. split.
  - apply step_none with (probes := probes); assumption.
  - apply length_erase. apply pick_index_lt. exact Ha.
Qed.

Lemma exhaustion_always_erases_witness :
  step (9 # 10) 1 g_far 0 st_lone
  = Ok (mk_state [seed; z0] 0 [] (occupancy st_lone))
  /\ S (length (erase (actives st_lone) (pick_index g_far 0 st_lone)))
     = length (actives st_lone).
Proof.
  apply (exhaustion_always_erases (9 # 10) 1%nat g_far 0%nat st_lone
           [(make_probe seed 1 (1, 0), - (1))]); reflexivity.
Defined.

(** C2, counterexample.  [min_dist = 0.9], two slots, one probe per
    iteration, at radius 1 and angle 0.  In the first iteration the seed is
    alone in the active list and [k = 0]; its only probe wraps onto the seed
    and is masked.  The index is erased all the same, the list becomes empty
    and the call returns 1: the seed is not probed again. *)
Lemma lone_seed_is_erased :
  rng_ok (9 # 10) g_far /\
  init [z0; z0] (9 # 10) = Ok st_lone /\
  loop_cond st_lone = true /\
  length (actives st_lone) = 1%nat /\ k st_lone = 0%nat /\
  iteration_probes 1 g_far 0 st_lone = Ok [(make_probe seed 1 (1, 0), - (1))] /\
  (exists st', step (9 # 10) 1 g_far 0 st_lone = Ok st' /\ actives st' = [] /\
               loop_cond st' = false) /\
  poisson_square 5 g_far [z0; z0] (9 # 10) 1 = Ok (1%nat, [seed; z0]).
Proof.
  split; [exact g_far_ok|].
  repeat split; try reflexivity.
  eexists. repeat split; reflexivity.
Qed.

(* ------------------------------------------------------------------ *)
(** ** Calls outside the documented preconditions *)

Lemma main_loop_S (fuel : nat) (min_dist : Q) (num_probes : nat) (g : rng)
      (it : nat) (st : state) :
  main_loop (S fuel) min_dist num_probes g it st
  = if loop_cond st
    then st' <- step min_dist num_probes g it st ;;
         main_loop fuel min_dist num_probes g (S it) st'
    else Ok (it, st).
Proof. reflexivity. Qed.

Lemma main_loop_stop (fuel : nat) (min_dist : Q) (num_probes : nat) (g : rng)
      (it : nat) (st : state) :
  loop_cond st = false -> main_loop fuel min_dist num_probes g it st = Ok (it, st).
Proof. intro H. destruct fuel; simpl; rewrite H; reflexivity. Qed.

Lemma select_nearest_nil (nd : Q) :
  snd (select_nearest [] nd None) = None.
Proof. reflexivity. Qed.

(** From [min_dist >= 0.001] on the grid has at most 1415 cells a side. *)
Lemma side_small (d : Q) :
  1 # 1000 <= d ->
  exists s, ceil_sqrt2_over d = Some s /\ (1 <= s <= 1415)%Z.
Proof.
  intro Hd.
  assert (Hp : 0 < d) by lra.
  destruct (ceil_sqrt2_over_pos d Hp) as [s [Hs [H1 [_ Hu]]]].
  exists s. split; [exact Hs|]. split; [exact H1|].
  destruct (Z_le_gt_dec s 1415) as [L|G]; [exact L|exfalso].
  assert (X : 1415 <= inject_Z (s - 1)).
  { change 1415 with (inject_Z 1415). rewrite <- Zle_Qle. lia. }
  assert (Y : 1 <= inject_Z (s - 1) * d * (1000 # 1415)) by nra.
  nra.
Qed.

(** C7 (as amended).  [poisson_square] checks none of its preconditions
    and reports no error of its own.  For a buffer of at least one slot and
    any [min_dist >= 0.001] (also [min_dist >= 1]) the grid side is between
    1 and 1415, so that the grid and the [int] offset of the seed are well
    within range, and a call with [num_probes = 0], or with a buffer of
    exactly one slot, writes the seed [(0.5, 0.5)] into slot 0, leaves the
    other slots as they are and returns the count 1. *)
Theorem no_precondition_check (fuel : nat) (g : rng) (buffer : list vec2)
        (min_dist : Q) (num_probes : nat) :
  buffer <> [] -> 1 # 1000 <= min_dist ->
  (num_probes = 0 \/ length buffer = 1)%nat ->
  (1 <= fuel)%nat ->
  (exists s, ceil_sqrt2_over min_dist = Some s /\ (1 <= s <= 1415)%Z /\
             (0 <= mask_offset s seed < s * s)%Z /\ (s * s <= int_max)%Z) /\
  poisson_square fuel g buffer min_dist num_probes = Ok (1%nat, seed :: tl buffer).
Proof.
  intros Hb Hd' Hc Hf.
  assert (Hd : 0 < min_dist) by lra.
  split.
  { destruct (side_small _ Hd') as [s [Hs Hr]].
    exists s. split; [exact Hs|]. split; [exact Hr|].
    split; [apply mask_offset_range; [lia|exact seed_in_unit]|].
    unfold int_max. nia. }
  destruct (init_ok _ _ Hb Hd) as [s [_ Hi]].
  unfold poisson_square, run. rewrite Hi. simpl bind at 2.
  set (st0 := mk_state _ _ _ _).
  destruct buffer as [|h t]; [congruence|].
  destruct fuel as [|fuel]; [lia|].
  destruct t as [|h' t'].
  - reflexivity.
  - destruct Hc as [->|Hc]; [|simpl in Hc; lia].
    assert (C : loop_cond st0 = true) by reflexivity.
    assert (P : iteration_probes 0 g 0 st0 = Ok []).
    { unfold iteration_probes, pick_index. simpl actives. simpl length.
      rewrite Nat.mod_1_r. reflexivity. }
    pose proof (step_none min_dist 0%nat g 0%nat st0 [] ltac:(simpl; lia) P
                  (select_nearest_nil _)) as St.
    rewrite main_loop_S, C, St. simpl bind at 2.
    rewrite main_loop_stop.
    + reflexivity.
    + reflexivity.
Qed.

Lemma no_precondition_check_witness :
  1 # 1000 <= 3 # 2 /\
  poisson_square 1 g_tie [z0; z0; z0] (3 # 2) 0 = Ok (1%nat, [seed; z0; z0]).
Proof.
  assert (D : 1 # 1000 <= 3 # 2) by (unfold Qle; simpl; lia).
  split; [exact D|].
  apply (no_precondition_check 1%nat g_tie [z0; z0; z0] (3 # 2) 0%nat).
  - discriminate.
  - exact D.
  - left. reflexivity.
  - lia.
Defined.

(** C7, counterexample.  Calls with [num_probes = 0] and with
    [min_dist >= 1] return normally with the seed written into slot 0: no
    error is raised and work is performed. *)
Lemma precondition_violations_run_normally :
  poisson_square 1 g_tie [z0; z0] (1 # 10) 0 = Ok (1%nat, [seed; z0]) /\
  poisson_square 1 g_tie [z0] (3 # 2) 30 = Ok (1%nat, [seed]) /\
  nth_error [z0; z0] 0 <> nth_error [seed; z0] 0.
Proof.
  repeat split; try reflexivity. simpl. intro H. inversion H.
Qed.

(* ------------------------------------------------------------------ *)
(** ** One iteration, and the frame and the measure of the main loop *)

Lemma vec_put_ok {A : Type} (v v' : list A) (i : nat) (a : A) :
  vec_put v i a = Ok v' -> (i < length v)%nat /\ v' = list_set v i a.
Proof.
  unfold vec_put. destruct (i <? length v)%nat eqn:E; [|discriminate].
  apply Nat.ltb_lt in E. intro H. inversion H. auto.
Qed.

(** An iteration that succeeds either erases the picked index or accepts
    the selected probe into slot [k + 1]. *)
Lemma step_cases (min_dist : Q) (num_probes : nat) (g : rng) (it : nat) (st st' : state) :
  step min_dist num_probes g it st = Ok st' ->
  exists probes, iteration_probes num_probes g it st = Ok probes /\
  ((snd (select_nearest probes (4 * min_dist * min_dist) None) = None /\
    st' = mk_state (kernel st) (k st) (erase (actives st) (pick_index g it st))
                   (occupancy st))
   \/ exists p, snd (select_nearest probes (4 * min_dist * min_dist) None) = Some p /\
        (S (k st) < length (kernel st))%nat /\
        kernel st' = list_set (kernel st) (S (k st)) p /\
        k st' = S (k st) /\
        actives st' = actives st ++ [S (k st)] /\
        mask (occupancy st) p (S (k st)) = Ok (occupancy st')).
Proof.
  unfold step. intro H. bind_inv H. rename a into probes. exists probes.
  split; [exact E|]. simpl in H.
  destruct (snd (select_nearest probes (4 * min_dist * min_dist) None)) as [p|].
  - simpl in H. bind_inv H. bind_inv H. inversion H; subst st'; clear H. simpl.
    apply vec_put_ok in E0. destruct E0 as [L ->].
    right. exists p. repeat split; auto.
  - simpl in H.
    destruct ((0 <? length (actives st))%nat || (1 <? k st)%nat); [|discriminate].
    inversion H. left. auto.
Qed.

Lemma step_length (min_dist : Q) (num_probes : nat) (g : rng) (it : nat) (st st' : state) :
  step min_dist num_probes g it st = Ok st' ->
  length (kernel st') = length (kernel st).
Proof.
  intro H. apply step_cases in H.
  destruct H as [probes [_ [[_ ->]|[p [_ [_ [-> _]]]]]]]; simpl; auto.
  apply length_list_set.
Qed.

Lemma main_loop_frame (min_dist : Q) (num_probes : nat) (g : rng) (fuel : nat) :
  forall it st it' st',
    main_loop fuel min_dist num_probes g it st = Ok (it', st') ->
    (k st < length (kernel st))%nat ->
    length (kernel st') = length (kernel st) /\
    (k st <= k st' < length (kernel st))%nat /\
    forall i, (k st' < i)%nat -> nth_error (kernel st') i = nth_error (kernel st) i.
Proof.
  induction fuel as [|fuel IH]; intros it st it' st' H K.
  - simpl in H. destruct (loop_cond st); [discriminate|].
    inversion H; subst. repeat split; auto; lia.
  - rewrite main_loop_S in H. destruct (loop_cond st).
    + bind_inv H. rename a into st1.
      pose proof (step_length _ _ _ _ _ _ E) as L1.
      pose proof (step_cases _ _ _ _ _ _ E) as [probes [_ C]].
      assert (K1 : (k st <= k st1 < length (kernel st1))%nat).
      { destruct C as [[_ ->]|[p [_ [Lk [_ [-> _]]]]]]; simpl; lia. }
      destruct (IH _ _ _ _ H ltac:(lia)) as [L2 [K2 F2]].
      split; [congruence|]. split; [lia|].
      intros i Hi. rewrite (F2 i Hi).
      destruct C as [[_ ->]|[p [_ [Lk [-> [Ek _]]]]]]; simpl; [reflexivity|].
      apply nth_error_list_set_neq. lia.
    + inversion H; subst. repeat split; auto; lia.
Qed.

Lemma init_inv (buffer : list vec2) (min_dist : Q) (st0 : state) :
  init buffer min_dist = Ok st0 ->
  (0 < length buffer)%nat /\ kernel st0 = list_set buffer 0 seed /\
  k st0 = 0%nat /\ actives st0 = [0%nat].
Proof.
  unfold init. intro H. bind_inv H. bind_inv H. bind_inv H.
  inversion H; subst; clear H. simpl.
  apply vec_put_ok in E0. destruct E0 as [L ->]. auto.
Qed.

(** C9.  A call that returns the count [c] leaves every slot of index
    [>= c] with the contents it had before the call: only the slots
    [0 .. c - 1] are written.  The buffer keeps its length and
    [1 <= c <= N]. *)
Theorem slots_beyond_count_untouched (fuel : nat) (g : rng) (buffer : list vec2)
        (min_dist : Q) (num_probes c : nat) (buffer' : list vec2) :
  poisson_square fuel g buffer min_dist num_probes = Ok (c, buffer') ->
  length buffer' = length buffer /\ (1 <= c <= length buffer)%nat /\
  forall i, (c <= i)%nat -> nth_error buffer' i = nth_error buffer i.
Proof.
  unfold poisson_square, run. intro H. bind_inv H. destruct a as [it st].
  inversion H; subst; clear H. simpl.
  bind_inv E. rename a into st0.
  destruct (init_inv _ _ _ E0) as [Lb [K0 [k0 _]]].
  assert (L0 : length (kernel st0) = length buffer).
  { rewrite K0. apply length_list_set. }
  destruct (main_loop_frame _ _ _ _ _ _ _ _ E ltac:(lia)) as [L [K F]].
  split; [congruence|]. split; [lia|].
  intros i Hi. rewrite (F i ltac:(lia)), K0.
  apply nth_error_list_set_neq. lia.
Qed.

Lemma slots_beyond_count_untouched_witness :
  poisson_square 5 g_far [z0; z0; z0] (9 # 10) 1 = Ok (1%nat, [seed; z0; z0]) /\
  length [seed; z0; z0] = length [z0; z0; z0] /\
  (1 <= 1 <= length [z0; z0; z0])%nat /\
  forall i, (1 <= i)%nat -> nth_error [seed; z0; z0] i = nth_error [z0; z0; z0] i.
Proof.
  split; [reflexivity|].
  exact (slots_beyond_count_untouched 5%nat g_far [z0; z0; z0] (9 # 10) 1%nat
           1%nat [seed; z0; z0] eq_refl).
Defined.

(* ------------------------------------------------------------------ *)
(** ** Termination of the main loop *)

Lemma bind_fuel_free {A B : Type} (c : outcome A) (f : A -> outcome B) :
  fuel_free c -> (forall a, c = Ok a -> fuel_free (f a)) -> fuel_free (bind c f).
Proof.
  unfold fuel_free. destruct c; simpl; intros Hc Hf; try discriminate; auto.
Qed.

Lemma masked_cell_fuel_free m kernel0 probe x y c :
  fuel_free (masked_cell m kernel0 probe x y c).
Proof.
  unfold fuel_free, masked_cell. destruct c as [j i].
  destruct (is_corner x y j i); [discriminate|].
  destruct (vec_get _ _) as [[o|]|]; try discriminate.
  destruct (nth_error kernel0 o); discriminate.
Qed.

Lemma masked_scan_fuel_free m kernel0 probe x y cells :
  fuel_free (masked_scan m kernel0 probe x y cells).
Proof.
  induction cells as [|c rest IH]; simpl; [discriminate|].
  apply bind_fuel_free; [apply masked_cell_fuel_free|].
  intros [|] _; [discriminate|exact IH].
Qed.

Lemma eval_probe_fuel_free m kernel0 active r a :
  fuel_free (eval_probe m kernel0 active r a).
Proof.
  unfold eval_probe. apply bind_fuel_free.
  - apply masked_scan_fuel_free.
  - intros; discriminate.
Qed.

Lemma gen_probes_fuel_free m kernel0 active g it n :
  forall i, fuel_free (gen_probes m kernel0 active g it i n).
Proof.
  induction n as [|n IH]; intro i; simpl; [discriminate|].
  apply bind_fuel_free; [apply eval_probe_fuel_free|]. intros p _.
  apply bind_fuel_free; [apply IH|]. intros; discriminate.
Qed.

Lemma mask_fuel_free m p k0 : fuel_free (mask m p k0).
Proof.
  unfold fuel_free, mask. destruct (vec_get _ _) as [[o|]|]; discriminate.
Qed.

Lemma step_fuel_free min_dist num_probes g it st :
  fuel_free (step min_dist num_probes g it st).
Proof.
  unfold step. apply bind_fuel_free.
  - unfold iteration_probes.
    destruct (nth_error (actives st) _); [|discriminate].
    destruct (nth_error (kernel st) _); [|discriminate].
    apply gen_probes_fuel_free.
  - intros probes _. simpl.
    destruct (snd (select_nearest probes _ None)) as [p|]; simpl.
    + apply bind_fuel_free.
      * unfold vec_put. destruct (_ <? _)%nat; discriminate.
      * intros kernel' _. apply bind_fuel_free; [apply mask_fuel_free|].
        intros; discriminate.
    + destruct (_ || _); discriminate.
Qed.

Lemma loop_cond_inv (st : state) :
  (1 <= length (kernel st))%nat -> loop_cond st = true ->
  (0 < length (actives st))%nat /\ (k st < length (kernel st) - 1)%nat.
Proof.
  intros L H. split; [apply loop_cond_actives; exact H|].
  unfold loop_cond in H. apply andb_true_iff in H. destruct H as [_ H].
  destruct (length (kernel st)) as [|n]; [lia|].
  apply Nat.ltb_lt in H. lia.
Qed.

Lemma length_app_one {A : Type} (l : list A) (a : A) :
  length (l ++ [a]) = S (length l).
Proof. rewrite length_app. simpl. lia. Qed.

Lemma step_variant (min_dist : Q) (num_probes : nat) (g : rng) (it : nat) (st st' : state) :
  (1 <= length (kernel st))%nat -> loop_cond st = true ->
  step min_dist num_probes g it st = Ok st' ->
  S (variant st') = variant st.
Proof.
  intros L C H. destruct (loop_cond_inv st L C) as [A K].
  pose proof (step_cases _ _ _ _ _ _ H) as [probes [_ Cs]].
  unfold variant.
  destruct Cs as [[_ ->]|[p [_ [Lk [Ek [-> [-> _]]]]]]]; simpl kernel; simpl k; simpl actives.
  - pose proof (length_erase (actives st) _ (pick_index_lt g it st A)). lia.
  - rewrite Ek, length_list_set, length_app_one. lia.
Qed.

Lemma main_loop_bounded (min_dist : Q) (num_probes : nat) (g : rng) (fuel : nat) :
  forall it st,
    (1 <= length (kernel st))%nat -> (variant st <= fuel)%nat ->
    fuel_free (main_loop fuel min_dist num_probes g it st) /\
    forall it' st', main_loop fuel min_dist num_probes g it st = Ok (it', st') ->
                    (it' <= it + variant st)%nat.
Proof.
  induction fuel as [|fuel IH]; intros it st L V.
  - assert (C : loop_cond st = false).
    { destruct (loop_cond st) eqn:C; [|reflexivity].
      apply loop_cond_actives in C. unfold variant in V. lia. }
    rewrite main_loop_stop by exact C. split; [discriminate|].
    intros it' st' H. inversion H. lia.
  - rewrite main_loop_S. destruct (loop_cond st) eqn:C.
    + split.
      * apply bind_fuel_free; [apply step_fuel_free|].
        intros st1 E. pose proof (step_variant _ _ _ _ _ _ L C E).
        apply IH; [rewrite (step_length _ _ _ _ _ _ E); exact L|lia].
      * intros it' st' H. bind_inv H. rename a into st1.
        pose proof (step_variant _ _ _ _ _ _ L C E) as Sv.
        destruct (IH (S it) st1) as [_ B];
          [rewrite (step_length _ _ _ _ _ _ E); exact L|lia|].
        specialize (B _ _ H). lia.
    + split; [discriminate|]. intros it' st' H. inversion H. lia.
Qed.

(** C10.  For a buffer of [N >= 1] slots and every random source, the main
    loop terminates within [2 N - 1] iterations: with that much fuel the run
    never ends for lack of fuel, and a run that completes reports at most
    [2 N - 1] iterations.  Each iteration that succeeds either accepts a
    point (then [k] grows by one, stays at most [N - 1], and the new index is
    appended to the active list) or erases the picked index from the active
    list (then [k] is unchanged and the list is one shorter). *)
Theorem main_loop_terminates (fuel : nat) (g : rng) (buffer : list vec2)
        (min_dist : Q) (num_probes : nat) :
  (1 <= length buffer)%nat ->
  (2 * length buffer - 1 <= fuel)%nat ->
  run fuel g buffer min_dist num_probes <> OutOfFuel /\
  (forall it st, run fuel g buffer min_dist num_probes = Ok (it, st) ->
                 (it <= 2 * length buffer - 1)%nat) /\
  (forall it st st',
      length (kernel st) = length buffer -> loop_cond st = true ->
      step min_dist num_probes g it st = Ok st' ->
      (k st' = S (k st) /\ (k st' <= length buffer - 1)%nat /\
       actives st' = actives st ++ [k st'])
      \/ (k st' = k st /\ actives st' = erase (actives st) (pick_index g it st) /\
          S (length (actives st')) = length (actives st))).
Proof.
  intros N F.
  assert (I : forall st0, init buffer min_dist = Ok st0 ->
                (1 <= length (kernel st0))%nat /\ variant st0 = (2 * length buffer - 1)%nat).
  { intros st0 E. destruct (init_inv _ _ _ E) as [_ [K0 [k0 A0]]].
    unfold variant. rewrite K0, k0, A0, length_list_set. simpl length. lia. }
  split; [|split].
  - unfold run. apply bind_fuel_free.
    + unfold init. apply bind_fuel_free.
      * unfold new_map. destruct (ceil_sqrt2_over min_dist); discriminate.
      * intros m _. apply bind_fuel_free.
        -- unfold vec_put. destruct (_ <? _)%nat; discriminate.
        -- intros k0 _. apply bind_fuel_free; [|intros; discriminate].
           destruct (nth_error k0 0); [apply mask_fuel_free|discriminate].
    + intros st0 E. destruct (I _ E) as [L V].
      apply main_loop_bounded; [exact L|lia].
  - intros it st H. unfold run in H. bind_inv H. rename a into st0.
    destruct (I _ E) as [L V].
    destruct (main_loop_bounded min_dist num_probes g fuel 0%nat st0 L ltac:(lia)) as [_ B].
    specialize (B _ _ H). lia.
  - intros it st st' L C H.
    destruct (loop_cond_inv st ltac:(lia) C) as [A K].
    pose proof (step_cases _ _ _ _ _ _ H) as [probes [_ Cs]].
    destruct Cs as [[_ ->]|[p [_ [Lk [Ek [-> [-> _]]]]]]]; simpl.
    + right. repeat split. apply length_erase. apply pick_index_lt. exact A.
    + left. repeat split. lia.
Qed.

Lemma main_loop_terminates_witness :
  run 5 g_tie [z0; z0; z0] (3 # 25) 2 <> OutOfFuel /\
  (forall it st, run 5 g_tie [z0; z0; z0] (3 # 25) 2 = Ok (it, st) -> (it <= 5)%nat).
Proof.
  destruct (main_loop_terminates 5%nat g_tie [z0; z0; z0] (3 # 25) 2%nat)
    as [T [B _]].
  - simpl. lia.
  - simpl. lia.
  - split; [exact T|exact B].
Defined.

(* ------------------------------------------------------------------ *)
(** ** Probes stay in the unit square *)

Lemma unit_dir_bounds (a : Q * Q) :
  unit_dir a -> (- (1) <= fst a <= 1) /\ (- (1) <= snd a <= 1).
Proof.
  unfold unit_dir. destruct a as [c s]. simpl. intro H.
  repeat split; nra.
Qed.

Lemma wrap_cases (c : Q) :
  (c < 0 /\ wrap c = c + 1) \/ (1 <= c /\ wrap c = c - 1) \/ (0 <= c < 1 /\ wrap c = c).
Proof.
  unfold wrap. destruct (Qltb c 0) eqn:E.
  - apply Qltb_lt in E. left. auto.
  - apply Qltb_ge in E. destruct (Qle_bool 1 c) eqn:F.
    + apply Qle_bool_iff in F. right. left. auto.
    + right. right. split; [|reflexivity]. split; [exact E|].
      apply Qnot_le_lt. intro L. apply Qle_bool_iff in L. congruence.
Qed.





Lemma ranking_nonneg (a p : vec2) : 0 <= ranking a p.
Proof.
  unfold ranking, dot, vabs, vsub. cbn [vx vy].
  pose proof (Qabs_nonneg (vx a - vx p)). pose proof (Qabs_nonneg (vy a - vy p)). nra.
Qed.


(* ------------------------------------------------------------------ *)
(** ** Invariants of the sampler state *)


Lemma tiled_range (s i : Z) :
  (2 <= s)%Z -> (- 2 <= i)%Z -> (0 <= tiled s i < s)%Z.
Proof.
  intros Hs Hi. unfold tiled. destruct (i <? 0)%Z eqn:E.
  - apply Z.ltb_lt in E. lia.
  - apply Z.ltb_ge in E. apply Z.rem_bound_pos; lia.
Qed.



Lemma window_In (x y j i : Z) :
  In (j, i) (window x y) -> (x - 2 <= i <= x + 2)%Z /\ (y - 2 <= j <= y + 2)%Z.
Proof.
  unfold window, span. simpl. intro H.
  repeat (destruct H as [H|H]; [inversion H; lia|]). destruct H.
Qed.



(** The reads of [masked] are in bounds when the grid describes the
    kernel and the probe lies in the unit square. *)
Lemma masked_cell_safe (min_dist : Q) (st : state) (probe : vec2) (x y j i : Z) :
  grid_ok min_dist st -> (k st < length (kernel st))%nat ->
  (2 <= m_side (occupancy st))%Z ->
  (- 2 <= i)%Z -> (- 2 <= j)%Z ->
  exists b, masked_cell (occupancy st) (kernel st) probe x y (j, i) = Ok b.
Proof.
  intros G K S2 Hi Hj. unfold masked_cell.
  destruct (is_corner x y j i); [eauto|].
  set (s := m_side (occupancy st)) in *.
  pose proof (tiled_range s i S2 Hi). pose proof (tiled_range s j S2 Hj).
  destruct (vec_get_in_range (m_mask (occupancy st)) (tiled s j * s + tiled s i)%Z)
    as [c Hc].
  { rewrite (g_len _ _ G). fold s. nia. }
  rewrite Hc. destruct c as [o|]; [|eauto].
  destruct (g_cells _ _ G _ _ Hc) as [_ [p [Hp _]]]. rewrite Hp. eauto.
Qed.






Lemma vec_get_list_set {A : Type} (v : list A) (off off' : Z) (a c : A) :
  (0 <= off)%Z ->
  vec_get (list_set v (Z.to_nat off) a) off' = Some c ->
  (off' = off /\ c = a) \/ (off' <> off /\ vec_get v off' = Some c).
Proof.
  intros Ho H. destruct (Z.eq_dec off' off) as [->|N].
  - left. split; [reflexivity|].
    apply vec_get_Some in H. destruct H as [_ H].
    assert (L : (Z.to_nat off < length v)%nat).
    { rewrite <- (length_list_set v (Z.to_nat off) a).
      apply nth_error_Some. congruence. }
    rewrite nth_error_list_set_eq in H by exact L. congruence.
  - right. split; [exact N|].
    unfold vec_get in *. destruct (off' <? 0)%Z eqn:E; [discriminate|].
    apply Z.ltb_ge in E.
    rewrite nth_error_list_set_neq in H by lia. exact H.
Qed.


Lemma NoDup_snoc {A : Type} (l : list A) (a : A) :
  NoDup l -> ~ In a l -> NoDup (l ++ [a]).
Proof.
  induction l as [|h t IH]; intros N I; simpl.
  - constructor; [intros []|constructor].
  - inversion N; subst. constructor.
    + rewrite in_app_iff. intros [X|[X|[]]]; [auto|]. subst. apply I. left. reflexivity.
    + apply IH; [assumption|]. intro X. apply I. right. exact X.
Qed.

Lemma NoDup_erase {A : Type} (l : list A) (i : nat) :
  NoDup l -> NoDup (erase l i).
Proof.
  revert i. induction l as [|h t IH]; intros [|i] N; simpl; auto;
    inversion N; subst; auto.
  constructor; [|apply IH; assumption].
  intro X. apply In_erase in X. auto.
Qed.



Lemma init_safe (buffer : list vec2) (min_dist : Q) :
  buffer <> [] -> 0 < min_dist ->
  exists st0, init buffer min_dist = Ok st0 /\ inv min_dist st0 /\
              kernel st0 = seed :: tl buffer /\ k st0 = 0%nat.
Proof.
  intros Hb Hd. destruct (init_ok buffer min_dist Hb Hd) as [s [Hs Hi]].
  eexists. split; [exact Hi|]. split; [|auto].
  destruct (ceil_sqrt2_over_pos min_dist Hd) as [s' [Hs' [S1 _]]].
  assert (s' = s) by congruence. subst s'.
  pose proof (mask_offset_range s seed ltac:(lia) seed_in_unit) as Ho.
  constructor; simpl.
  - lia.
  - intros idx [<-|[]]. lia.
  - constructor; [intros []|constructor].
  - intros i p Li Hp. assert (i = 0%nat) by lia. subst i. simpl in Hp.
    inversion Hp. exact seed_in_unit.
  - constructor; simpl; auto.
    + rewrite length_list_set. apply repeat_length.
    + intros off o H.
      destruct (vec_get_list_set _ _ _ _ _ (proj1 Ho) H) as [[-> E]|[N H']].
      * inversion E; subst o. split; [lia|]. exists seed. auto.
      * apply vec_get_repeat_None in H'. discriminate.
Qed.

(** From here on [min_dist] is at most one half and the draws are in the
    ranges of their distributions. *)
Section Safety.

Variable min_dist : Q.
Hypothesis D : 0 < min_dist <= 1 # 2.
Variable g : rng.
Hypothesis R : rng_ok min_dist g.




End Safety.











(* ------------------------------------------------------------------ *)
(** ** The value that ranks a probe *)




Lemma fold_min_attained (f : Q * Q -> Q) (base : Q) (l : list (Q * Q)) :
  fold_right (fun t acc => Qmin (f t) acc) base l == base \/
  exists t, In t l /\ fold_right (fun t acc => Qmin (f t) acc) base l == f t.
Proof.
  induction l as [|h r IH]; simpl; [left; reflexivity|].
  destruct (Q.min_spec (f h) (fold_right (fun t acc => Qmin (f t) acc) base r))
    as [[_ E]|[_ E]].
  - right. exists h. split; [left; reflexivity|exact E].
  - destruct IH as [B|[t [I B]]].
    + left. rewrite E. exact B.
    + right. exists t. split; [right; exact I|]. rewrite E. exact B.
Qed.

(** ... and it is the squared distance to one of them: it is the minimum
    over the nine translates. *)
Lemma torus_dist2_attained (p q : vec2) :
  exists t, In t shifts /\ torus_dist2 p q == dist2_shift p q t.
Proof.
  unfold torus_dist2.
  destruct (fold_min_attained (dist2_shift p q) (dist2_shift p q (0, 0)) shifts)
    as [B|H]; [|exact H].
  exists (0, 0). split; [|exact B].
  unfold shifts. simpl. do 4 right. left. reflexivity.
Qed.






(* ------------------------------------------------------------------ *)
(** ** The corner cells of the window *)

Lemma eqb_iff (a b c d : Z) : (a = b <-> c = d) -> (a =? b)%Z = (c =? d)%Z.
Proof.
  intro H. destruct (Z.eqb_spec a b) as [E|E], (Z.eqb_spec c d) as [F|F];
    try reflexivity; exfalso; tauto.
Qed.

Lemma is_corner_shift (x y j i : Z) :
  is_corner x y (j + y) (i + x) = is_corner 0 0 j i.
Proof.
  unfold is_corner.
  rewrite (eqb_iff (j + y) (y - 2) j (0 - 2)) by lia.
  rewrite (eqb_iff (j + y) (y + 2) j (0 + 2)) by lia.
  rewrite (eqb_iff (i + x) (x - 2) i (0 - 2)) by lia.
  rewrite (eqb_iff (i + x) (x + 2) i (0 + 2)) by lia.
  reflexivity.
Qed.

Lemma window_shift (x y : Z) :
  window x y = map (fun c => (fst c + y, snd c + x)%Z) (window 0 0).
Proof.
  unfold window, span. cbn [flat_map map app fst snd].
  repeat (f_equal; try lia).
Qed.

Lemma examined_21 (x y : Z) : length (examined x y) = 21%nat.
Proof.
  unfold examined. rewrite window_shift, filter_map_swap, length_map.
  rewrite (filter_ext _ (fun c => negb (is_corner 0 0 (fst c) (snd c)))).
  - reflexivity.
  - intros [j i]. cbn [fst snd]. rewrite is_corner_shift. reflexivity.
Qed.

(** C4, at the failing input.  [min_dist = 0.12], so the grid has side 12
    and cells of side [1/12].  With the seed [(0.5, 0.5)] in cell [(6, 6)]
    and [(0.304, 0.5)] accepted, the probe [(0.416, 0.416)] lies in cell
    [(4, 4)]: the seed is stored in the outer corner cell [(4 + 2, 4 + 2)] of
    its window, at squared distance [0.014112 < 0.0144 = min_dist^2], and
    [masked] answers [false].  The window has 21 examined cells. *)
Theorem masked_misses_point_in_corner_cell :
  exists st0 st1,
    rng_ok (3 # 25) g_corner /\
    init [z0; z0; z0] (3 # 25) = Ok st0 /\
    step (3 # 25) 1 g_corner 0 st0 = Ok st1 /\
    make_probe (mk_vec2 (152 # 500) (250 # 500)) (7 # 50) (4 # 5, - (3 # 5))
    = p_corner /\
    m_side (occupancy st1) = 12%Z /\
    cell_of 12 (vx p_corner) = 4%Z /\ cell_of 12 (vy p_corner) = 4%Z /\
    cell_of 12 (vx seed) = (4 + 2)%Z /\ cell_of 12 (vy seed) = (4 + 2)%Z /\
    is_corner 4 4 (4 + 2) (4 + 2) = true /\
    vec_get (m_mask (occupancy st1)) (mask_offset 12 seed) = Some (Some 0%nat) /\
    nth_error (kernel st1) 0 = Some seed /\
    dot (vsub seed p_corner) (vsub seed p_corner) < m_dist2 (occupancy st1) /\
    masked (occupancy st1) p_corner (kernel st1) = Ok false /\
    forall x y, length (examined x y) = 21%nat.
Proof.
  do 2 eexists.
  split; [exact g_corner_ok|].
  split; [reflexivity|]. split; [vm_compute; reflexivity|].
  repeat (split; [vm_compute; reflexivity|]).
  exact examined_21.
Qed.

(** C1, at the failing input.  [min_dist = 0.12], three slots, one probe
    per iteration, draws in range.  The call accepts [(0.304, 0.5)] from
    the seed and then [(0.416, 0.416)] from that point, and returns 3; the
    seed and the third point are at toroidal squared distance
    [0.014112 < 0.0144 = min_dist^2]. *)
Theorem corner_skip_breaks_min_distance :
  rng_ok (3 # 25) g_corner /\
  poisson_square 2 g_corner [z0; z0; z0] (3 # 25) 1
  = Ok (3%nat, [seed; mk_vec2 (152 # 500) (250 # 500); p_corner]) /\
  seed <> p_corner /\
  torus_dist2 seed p_corner == 14112 # 1000000 /\
  torus_dist2 seed p_corner < (3 # 25) * (3 # 25).
Proof.
  split; [exact g_corner_ok|].
  split; [vm_compute; reflexivity|].
  split; [discriminate|].
  split; vm_compute; reflexivity.
Qed.

(* ------------------------------------------------------------------ *)
(** ** Further properties of the loop: slots and iterations *)

Lemma main_loop_keeps (min_dist : Q) (num_probes : nat) (g : rng) (fuel : nat) :
  forall it st it' st',
    main_loop fuel min_dist num_probes g it st = Ok (it', st') ->
    forall i, (i <= k st)%nat -> nth_error (kernel st') i = nth_error (kernel st) i.
Proof.
  induction fuel as [|fuel IH]; intros it st it' st' H i Hi.
  - simpl in H. destruct (loop_cond st); [discriminate|]. inversion H; subst. reflexivity.
  - rewrite main_loop_S in H. destruct (loop_cond st).
    + bind_inv H. rename a into st1.
      pose proof (step_cases _ _ _ _ _ _ E) as [probes [_ C]].
      destruct C as [[_ ->]|[p [_ [Lk [Ek [Kk _]]]]]].
      * exact (IH _ _ _ _ H i Hi).
      * rewrite (IH _ _ _ _ H i ltac:(rewrite Kk; lia)), Ek.
        apply nth_error_list_set_neq. lia.
    + inversion H; subst. reflexivity.
Qed.

(** X1.  Once a slot [i <= k] holds an accepted point, no later iteration
    of the main loop changes it: the kernel the loop leaves agrees with the
    kernel it started from on the slots [0 .. k]. *)
Theorem accepted_slots_never_rewritten (min_dist : Q) (num_probes : nat) (g : rng)
        (fuel it : nat) (st : state) (it' : nat) (st' : state) :
  main_loop fuel min_dist num_probes g it st = Ok (it', st') ->
  (k st <= k st')%nat /\
  forall i, (i <= k st)%nat -> nth_error (kernel st') i = nth_error (kernel st) i.
Proof.
  intro H. split; [|exact (main_loop_keeps _ _ _ _ _ _ _ _ H)].
  revert it st H. induction fuel as [|fuel IH]; intros it st H.
  - simpl in H. destruct (loop_cond st); [discriminate|]. inversion H; subst. lia.
  - rewrite main_loop_S in H. destruct (loop_cond st).
    + bind_inv H. rename a into st1.
      pose proof (step_cases _ _ _ _ _ _ E) as [probes [_ C]].
      specialize (IH _ _ H).
      destruct C as [[_ ->]|[p [_ [_ [_ [Kk _]]]]]]; simpl in *; lia.
    + inversion H; subst. lia.
Qed.

(** X2.  Whenever the call returns, slot 0 of the buffer holds the seed
    [(0.5, 0.5)]. *)
Theorem first_point_is_seed (fuel : nat) (g : rng) (buffer : list vec2)
        (min_dist : Q) (num_probes c : nat) (buffer' : list vec2) :
  poisson_square fuel g buffer min_dist num_probes = Ok (c, buffer') ->
  nth_error buffer' 0 = Some seed.
Proof.
  unfold poisson_square, run. intro H. bind_inv H. destruct a as [it st].
  inversion H; subst; clear H. cbn [snd].
  bind_inv E. rename a into st0.
  destruct (init_inv _ _ _ E0) as [Lb [K0 [k0 _]]].
  rewrite (main_loop_keeps _ _ _ _ _ _ _ _ E 0%nat ltac:(lia)), K0.
  apply nth_error_list_set_eq. exact Lb.
Qed.

Lemma main_loop_count (min_dist : Q) (num_probes : nat) (g : rng) (fuel : nat) :
  forall it st it' st',
    main_loop fuel min_dist num_probes g it st = Ok (it', st') ->
    loop_cond st' = false /\
    (it' + length (actives st') + 2 * k st = it + length (actives st) + 2 * k st')%nat.
Proof.
  induction fuel as [|fuel IH]; intros it st it' st' H.
  - simpl in H. destruct (loop_cond st) eqn:C; [discriminate|].
    inversion H; subst. split; [exact C|lia].
  - rewrite main_loop_S in H. destruct (loop_cond st) eqn:C.
    + bind_inv H. rename a into st1.
      pose proof (loop_cond_actives st C) as A.
      pose proof (step_cases _ _ _ _ _ _ E) as [probes [_ Cs]].
      destruct (IH _ _ _ _ H) as [C' I]. split; [exact C'|].
      destruct Cs as [[_ ->]|[p [_ [_ [_ [Kk [Ak _]]]]]]]; simpl in I.
      * pose proof (length_erase (actives st) _ (pick_index_lt g it st A)). lia.
      * rewrite Kk, Ak, length_app_one in I. lia.
    + inversion H; subst. split; [exact C|lia].
Qed.

(** X3.  A run that completes after [it] iterations with [k + 1] accepted
    points and [a] indices left in the active list satisfies
    [it + a = 2 k + 1]: every iteration is one acceptance or one erasure.
    The loop ends only with an empty active list or a full buffer. *)
Theorem iterations_accepts_and_erasures (fuel : nat) (g : rng) (buffer : list vec2)
        (min_dist : Q) (num_probes it : nat) (st : state) :
  run fuel g buffer min_dist num_probes = Ok (it, st) ->
  (it + length (actives st) = 2 * k st + 1)%nat /\
  (actives st = [] \/ S (k st) = length buffer).
Proof.
  unfold run. intro H. bind_inv H. rename a into st0.
  destruct (init_inv _ _ _ E) as [Lb [K0 [k0 A0]]].
  destruct (main_loop_count _ _ _ _ _ _ _ _ H) as [C I].
  rewrite k0, A0 in I. simpl in I. split; [lia|].
  destruct (main_loop_frame _ _ _ _ _ _ _ _ H) as [L [Kb _]].
  { rewrite K0, k0, length_list_set. exact Lb. }
  rewrite K0, length_list_set in L, Kb.
  unfold loop_cond in C. destruct (actives st) as [|a0 t]; [left; reflexivity|right].
  simpl in C. rewrite L in C. destruct (length buffer) as [|n]; [discriminate|].
  apply Nat.ltb_ge in C. lia.
Qed.

(* ------------------------------------------------------------------ *)
(** ** Geometry of the window *)








Lemma span_mem (c i : Z) : (c - 2 <= i <= c + 2)%Z -> In i (span c).
Proof.
  intro H. unfold span.
  assert (i = c - 2 \/ i = c - 1 \/ i = c \/ i = c + 1 \/ i = c + 2)%Z
    as [-> | [-> | [-> | [-> | ->]]]] by lia; simpl; tauto.
Qed.

Lemma window_mem (x y j i : Z) :
  (x - 2 <= i <= x + 2)%Z -> (y - 2 <= j <= y + 2)%Z -> In (j, i) (window x y).
Proof.
  intros Hi Hj. unfold window. apply in_flat_map. exists j.
  split; [apply span_mem; exact Hj|].
  apply in_map. apply span_mem. exact Hi.
Qed.


(* ------------------------------------------------------------------ *)
(** ** What the collision query guarantees *)

Section Separation.

Variable min_dist : Q.
Hypothesis D : 0 < min_dist <= 1 # 2.
Variable g : rng.
Hypothesis R : rng_ok min_dist g.







End Separation.

(* ------------------------------------------------------------------ *)
(** ** Guarantees on the points that a call returns *)




(* ------------------------------------------------------------------ *)
(** ** The states of the loop *)

Lemma reachable_length (min_dist : Q) (num_probes : nat) (g : rng) (buffer : list vec2)
      (it : nat) (st : state) :
  reachable min_dist num_probes g buffer it st ->
  length (kernel st) = length buffer /\ (k st < length buffer)%nat.
Proof.
  induction 1 as [st0 E|it st st' Hr [IHl IHk] C E].
  - destruct (init_inv _ _ _ E) as [Lb [K0 [k0 _]]].
    rewrite K0, k0, length_list_set. auto.
  - rewrite (step_length _ _ _ _ _ _ E).
    split; [exact IHl|].
    pose proof (step_cases _ _ _ _ _ _ E) as [probes [_ Cs]].
    destruct Cs as [[_ ->]|[p [_ [Lk [_ [-> _]]]]]]; simpl; lia.
Qed.

(** X10.  In every state of the loop the active list has no duplicate and
    holds only indices of accepted points, which are slots of the buffer:
    every entry is at most [k], and [k < N]. *)
Theorem active_list_valid (min_dist : Q) (num_probes : nat) (g : rng)
        (buffer : list vec2) (it : nat) (st : state) :
  reachable min_dist num_probes g buffer it st ->
  NoDup (actives st) /\
  (forall idx, In idx (actives st) -> (idx <= k st)%nat) /\
  (k st < length buffer)%nat.
Proof.
  intro Hr. split; [|split; [|exact (proj2 (reachable_length _ _ _ _ _ _ Hr))]].
  - induction Hr as [st0 E|it st st' Hr IH C E].
    + destruct (init_inv _ _ _ E) as [_ [_ [_ ->]]].
      constructor; [intros []|constructor].
    + assert (B : forall idx, In idx (actives st) -> (idx <= k st)%nat).
      { clear IH C E st'. induction Hr as [st0 E|it st st' Hr IH C E].
        - destruct (init_inv _ _ _ E) as [_ [_ [-> ->]]]. intros idx [<-|[]]. lia.
        - pose proof (step_cases _ _ _ _ _ _ E) as [probes [_ Cs]].
          destruct Cs as [[_ ->]|[p [_ [_ [_ [-> [-> _]]]]]]]; simpl.
          + intros idx H. apply IH. eapply In_erase; eauto.
          + intros idx H. apply in_app_iff in H. destruct H as [H|[<-|[]]]; [|lia].
            specialize (IH _ H). lia. }
      pose proof (step_cases _ _ _ _ _ _ E) as [probes [_ Cs]].
      destruct Cs as [[_ ->]|[p [_ [_ [_ [_ [-> _]]]]]]]; simpl.
      * apply NoDup_erase. exact IH.
      * apply NoDup_snoc; [exact IH|]. intro X. specialize (B _ X). lia.
  - induction Hr as [st0 E|it st st' Hr IH C E].
    + destruct (init_inv _ _ _ E) as [_ [_ [-> ->]]]. intros idx [<-|[]]. lia.
    + pose proof (step_cases _ _ _ _ _ _ E) as [probes [_ Cs]].
      destruct Cs as [[_ ->]|[p [_ [_ [_ [-> [-> _]]]]]]]; simpl.
      * intros idx H. apply IH. eapply In_erase; eauto.
      * intros idx H. apply in_app_iff in H. destruct H as [H|[<-|[]]]; [|lia].
        specialize (IH _ H). lia.
Qed.

(* ------------------------------------------------------------------ *)
(** ** A reported collision is a collision *)




(* ------------------------------------------------------------------ *)
(** ** A minimum distance that leaves room for the seed only *)

Lemma side_two (min_dist : Q) :
  0 < min_dist < 1 -> 1 < 2 * min_dist * min_dist ->
  ceil_sqrt2_over min_dist = Some 2%Z.
Proof.
  intros [D0 D1] D2.
  destruct (ceil_sqrt2_over_pos min_dist D0) as [s [Es [S1 [S2 S3]]]].
  rewrite Es. f_equal.
  assert (s = 1 \/ s = 2 \/ 3 <= s)%Z as [-> | [-> | H]] by lia.
  - exfalso. change (inject_Z 1) with 1 in S2. nra.
  - reflexivity.
  - exfalso. assert (H' : (2 <= s - 1)%Z) by lia.
    rewrite Zle_Qle in H'. change (inject_Z 2) with 2 in H'. nra.
Qed.

Lemma cell2_val (c : Q) :
  (- (1 # 2) < c < 1 # 2 -> cell_of 2 c = 0%Z) /\
  (1 # 2 <= c < 1 -> cell_of 2 c = 1%Z) /\
  (1 <= c < 3 # 2 -> cell_of 2 c = 2%Z).
Proof.
  unfold cell_of, trunc. destruct c as [n q].
  unfold Qlt, Qle, Qmult, inject_Z. cbn [Qnum Qden]. rewrite Pos.mul_1_r.
  repeat split; intros [L U]; cbn [Qnum Qden Qopp Z.opp] in L, U.
  - destruct (Z_lt_le_dec (n * 2) 0) as [N|N].
    + replace (n * 2)%Z with (- (- (n * 2)))%Z by lia.
      rewrite Z.quot_opp_l by lia. rewrite Z.quot_small by lia. reflexivity.
    + apply Z.quot_small. lia.
  - symmetry. apply (Z.quot_unique _ _ _ (n * 2 - Z.pos q)%Z); lia.
  - symmetry. apply (Z.quot_unique _ _ _ (n * 2 - 2 * Z.pos q)%Z); lia.
Qed.

(** Along one axis of the grid of side 2: a coordinate in [(-1/2, 3/2)]
    has, in a cell next to its own or in its own, a copy of the seed
    coordinate at most one half away. *)
Lemma axis_hit (c : Q) :
  - (1 # 2) < c < 3 # 2 ->
  exists i v, (0 <= cell_of 2 c)%Z /\
    (cell_of 2 c - 1 <= i <= cell_of 2 c + 1)%Z /\
    tiled 2 i = 1%Z /\ untile 2 i (1 # 2) = v /\ (v - c) * (v - c) <= 1 # 4.
Proof.
  intros [L U]. destruct (cell2_val c) as [C0 [C1 C2]].
  destruct (Qlt_le_dec c 0) as [N|N]; [|destruct (Qlt_le_dec c (1 # 2)) as [A|A];
    [|destruct (Qlt_le_dec c 1) as [B|B]]].
  - exists (- 1)%Z, ((1 # 2) - 1). rewrite C0 by (split; lra).
    repeat split; try reflexivity; try lia. nra.
  - exists 1%Z, (1 # 2). rewrite C0 by (split; lra).
    repeat split; try reflexivity; try lia. nra.
  - exists 1%Z, (1 # 2). rewrite C1 by (split; lra).
    repeat split; try reflexivity; try lia. nra.
  - exists 3%Z, ((1 # 2) + 1). rewrite C2 by (split; lra).
    repeat split; try reflexivity; try lia. nra.
Qed.

Lemma wrap_range (c : Q) : - (3 # 2) < c < 5 # 2 -> - (1 # 2) < wrap c < 3 # 2.
Proof.
  intros [L U]. destruct (wrap_cases c) as [[H ->]|[[H ->]|[H ->]]]; lra.
Qed.

Lemma masked_scan_hit m kernel0 probe x y cells :
  (forall c, In c cells -> exists b, masked_cell m kernel0 probe x y c = Ok b) ->
  (exists c, In c cells /\ masked_cell m kernel0 probe x y c = Ok true) ->
  masked_scan m kernel0 probe x y cells = Ok true.
Proof.
  induction cells as [|c rest IH]; intros S [c0 [I H]]; [destruct I|].
  simpl. destruct (S c (or_introl eq_refl)) as [b Hb]. rewrite Hb. cbn [bind].
  destruct b; [reflexivity|]. apply IH.
  - intros c' I'. apply S. right. exact I'.
  - destruct I as [<-|I]; [congruence|]. exists c0. auto.
Qed.

Lemma not_corner_near (x y j i : Z) :
  (x - 1 <= i <= x + 1)%Z -> is_corner x y j i = false.
Proof.
  intro H. unfold is_corner.
  replace (i =? x - 2)%Z with false by (symmetry; apply Z.eqb_neq; lia).
  replace (i =? x + 2)%Z with false by (symmetry; apply Z.eqb_neq; lia).
  apply andb_false_r.
Qed.

Section SeedOnly.

Variable min_dist : Q.
Hypothesis D : 0 < min_dist < 1.
Hypothesis Big : 1 < 2 * min_dist * min_dist.
Variable g : rng.
Hypothesis R : rng_ok min_dist g.

(** With only the seed accepted, every probe drawn around it is masked. *)
Lemma seed_masks_every_probe (st0 : state) (buffer : list vec2) (r : Q) (a : Q * Q) :
  init buffer min_dist = Ok st0 ->
  min_dist <= r < 2 * min_dist -> unit_dir a ->
  masked (occupancy st0) (make_probe seed r a) (kernel st0) = Ok true.
Proof.
  intros E [R0 R1] U.
  destruct (init_inv _ _ _ E) as [Lb [K0 [k0 A0]]].
  assert (Hb : buffer <> []) by (destruct buffer; [simpl in Lb; lia|discriminate]).
  destruct (init_safe buffer min_dist Hb (proj1 D)) as [st0' [Ei [I0 _]]].
  assert (st0' = st0) by congruence. subst st0'.
  destruct (init_ok buffer min_dist Hb (proj1 D)) as [s [Es Eo]].
  rewrite (side_two min_dist D Big) in Es. inversion Es; subst s. clear Es.
  rewrite E in Eo.
  assert (Eocc : occupancy st0
                 = mk_map 2 (min_dist * min_dist) [None; None; None; Some 0%nat])
    by (inversion Eo; reflexivity).
  clear Eo.
  pose proof (i_grid _ _ I0) as G.
  destruct (unit_dir_bounds a U) as [Bc Bs].
  destruct D as [D0 D1].
  set (p := make_probe seed r a).
  assert (Px : - (1 # 2) < vx p < 3 # 2).
  { unfold p, make_probe, seed. cbn [vx]. apply wrap_range. split; nra. }
  assert (Py : - (1 # 2) < vy p < 3 # 2).
  { unfold p, make_probe, seed. cbn [vy]. apply wrap_range. split; nra. }
  destruct (axis_hit _ Px) as [i [v [X0 [Hi [Ti [Ev Dv]]]]]].
  destruct (axis_hit _ Py) as [j [w [Y0 [Hj [Tj [Ew Dw]]]]]].
  unfold masked. rewrite Eocc. cbn [m_side].
  apply masked_scan_hit.
  - intros [j' i'] I'. apply window_In in I'.
    rewrite <- Eocc.
    apply masked_cell_safe with (min_dist := min_dist).
    + exact G.
    + exact (i_k _ _ I0).
    + rewrite Eocc. simpl. lia.
    + lia.
    + lia.
  - exists (j, i). split; [apply window_mem; lia|].
    unfold masked_cell. cbn [m_side m_mask m_dist2].
    rewrite (not_corner_near _ _ j i Hi), Ti, Tj.
    change (vec_get [None; None; None; Some 0%nat] (1 * 2 + 1)%Z)
      with (Some (Some 0%nat)).
    rewrite K0. destruct buffer as [|h t]; [congruence|]. cbn [list_set nth_error].
    change (vx seed) with (1 # 2). change (vy seed) with (1 # 2).
    rewrite Ev, Ew. f_equal. apply Qltb_lt.
    unfold dot, vsub, seed. cbn [vx vy]. fold p. lra.
Qed.

End SeedOnly.

Lemma gen_probes_all_masked m kernel0 active g it n :
  (forall i, masked m (make_probe active (radius g it i) (angle g it i)) kernel0
             = Ok true) ->
  forall i, exists ps, gen_probes m kernel0 active g it i n = Ok ps /\
                       forall e, In e ps -> snd e = - (1).
Proof.
  intro H. induction n as [|n IH]; intro i; simpl.
  - exists []. split; [reflexivity|intros e []].
  - unfold eval_probe. rewrite (H i). cbn [bind].
    destruct (IH (S i)) as [ps [E A]]. rewrite E. cbn [bind].
    eexists. split; [reflexivity|]. intros e [<-|I]; [reflexivity|auto].
Qed.

Lemma select_all_masked (probes : list (vec2 * Q)) (bound : Q) :
  (forall e, In e probes -> snd e = - (1)) ->
  snd (select_nearest probes bound None) = None.
Proof.
  intro A. destruct (select_nearest probes bound None) as [nd n] eqn:Es.
  destruct (select_nearest_spec _ _ _ _ _ Es) as [_ [_ [[_ [-> _]]|[i [p [Hi [_ [P _]]]]]]]].
  - reflexivity.
  - exfalso. apply nth_error_In in Hi. specialize (A _ Hi). cbn [snd] in A.
    rewrite A in P. revert P. unfold Qle. simpl. lia.
Qed.

(** X15.  When [min_dist < 1] and [min_dist^2 > 1/2], no second point fits:
    for every buffer of at least one slot, every number of probes and all
    draws in range, every probe of the first iteration is masked by the
    seed, the seed is erased from the active list, and the call returns 1
    with only slot 0 written. *)
Theorem only_the_seed_fits (min_dist : Q) (fuel : nat) (g : rng)
        (buffer : list vec2) (num_probes : nat) :
  0 < min_dist < 1 -> 1 < 2 * min_dist * min_dist -> rng_ok min_dist g ->
  buffer <> [] -> (1 <= fuel)%nat ->
  poisson_square fuel g buffer min_dist num_probes = Ok (1%nat, seed :: tl buffer).
Proof.
  intros D Big R Hb F.
  destruct (init_safe buffer min_dist Hb (proj1 D)) as [st0 [E [_ [K0 k0]]]].
  destruct (init_inv _ _ _ E) as [_ [_ [_ A0]]].
  unfold poisson_square, run. rewrite E. cbn [bind].
  destruct fuel as [|fuel]; [lia|]. rewrite main_loop_S.
  destruct (loop_cond st0) eqn:C.
  - assert (Pi : pick_index g 0 st0 = 0%nat).
    { unfold pick_index. rewrite A0. simpl length. apply Nat.mod_1_r. }
    destruct (gen_probes_all_masked (occupancy st0) (kernel st0) seed g 0 num_probes
                (fun i => seed_masks_every_probe min_dist D Big st0 buffer _ _ E
                            (proj1 (R 0%nat i)) (proj2 (R 0%nat i))) 0%nat)
      as [ps [Eg Am]].
    assert (P : iteration_probes num_probes g 0 st0 = Ok ps).
    { assert (Hk0 : nth_error (kernel st0) 0 = Some seed) by (rewrite K0; reflexivity).
      unfold iteration_probes. rewrite Pi, A0.
      change (nth_error [0%nat] 0) with (Some 0%nat). cbv beta iota.
      rewrite Hk0. exact Eg. }
    rewrite (step_none min_dist num_probes g 0 st0 ps
               ltac:(rewrite A0; simpl; lia) P (select_all_masked ps _ Am)).
    cbn [bind]. rewrite main_loop_stop.
    + cbn [bind snd k kernel]. rewrite ?k0, ?K0. reflexivity.
    + unfold loop_cond. cbn [actives]. rewrite Pi, A0. reflexivity.
  - cbn [bind snd]. rewrite k0, K0. reflexivity.
Qed.

(* ------------------------------------------------------------------ *)
(** ** The write of [mask] *)


(* ------------------------------------------------------------------ *)
(** ** The properties above on concrete runs *)


Lemma run_half : run 3 g_half [z0; z0] (1 # 2) 1 = Ok (1%nat, st_half).
Proof. vm_compute. reflexivity. Qed.

Lemma call_half :
  poisson_square 3 g_half [z0; z0] (1 # 2) 1 = Ok (2%nat, [seed; p_half]).
Proof. vm_compute. reflexivity. Qed.

Lemma step_tie1 : step (3 # 25) 2 g_tie 0 st_first = Ok st_tie1.
Proof. vm_compute. reflexivity. Qed.

Lemma reach_first : reachable (3 # 25) 2 g_tie [z0; z0] 0 st_first.
Proof. apply reach_init. vm_compute. reflexivity. Qed.

Lemma accepted_slots_never_rewritten_witness :
  main_loop 1 (3 # 25) 2 g_tie 0 st_first = Ok (1%nat, st_tie1) /\
  (k st_first <= k st_tie1)%nat /\
  forall i, (i <= k st_first)%nat ->
            nth_error (kernel st_tie1) i = nth_error (kernel st_first) i.
Proof.
  assert (E : main_loop 1 (3 # 25) 2 g_tie 0 st_first = Ok (1%nat, st_tie1))
    by (vm_compute; reflexivity).
  split; [exact E|].
  exact (accepted_slots_never_rewritten (3 # 25) 2 g_tie 1 0 st_first 1 st_tie1 E).
Defined.

Lemma first_point_is_seed_witness :
  poisson_square 3 g_half [z0; z0] (1 # 2) 1 = Ok (2%nat, [seed; p_half]) /\
  nth_error [seed; p_half] 0 = Some seed.
Proof.
  split; [exact call_half|].
  exact (first_point_is_seed 3 g_half [z0; z0] (1 # 2) 1 2 [seed; p_half] call_half).
Defined.

Lemma iterations_accepts_and_erasures_witness :
  (1 + length (actives st_half) = 2 * k st_half + 1)%nat /\
  (actives st_half = [] \/ S (k st_half) = length [z0; z0]).
Proof.
  exact (iterations_accepts_and_erasures 3 g_half [z0; z0] (1 # 2) 1 1 st_half run_half).
Defined.



Lemma active_list_valid_witness :
  NoDup (actives st_tie1) /\
  (forall idx, In idx (actives st_tie1) -> (idx <= k st_tie1)%nat) /\
  (k st_tie1 < length [z0; z0])%nat.
Proof.
  apply (active_list_valid (3 # 25) 2 g_tie [z0; z0] 1 st_tie1).
  apply (reach_step _ _ _ _ 0%nat st_first st_tie1 reach_first).
  - reflexivity.
  - exact step_tie1.
Defined.


Lemma only_the_seed_fits_witness :
  poisson_square 1 g_far [z0; z0; z0] (9 # 10) 30 = Ok (1%nat, [seed; z0; z0]).
Proof.
  apply (only_the_seed_fits (9 # 10) 1 g_far [z0; z0; z0] 30).
  - lra.
  - lra.
  - exact g_far_ok.
  - discriminate.
  - lia.
Defined.

